(** * Adversarial search of [game_agent.py]: minimax, alpha-beta pruning and
      iterative deepening under a time budget.

    The development embeds the Python module function by function.

    - Scores are Python floats.  They are modelled by canonical rationals
      extended with the two infinities ([SearchValue]); NaN and the sign of
      zero are left out, so numeric equality is Leibniz equality.
    - [Timeout] is the only exception of the module.  A computation that
      may raise it, and that reads the clock, is a function from the number
      of clock readings made so far to an [outcome] and the new number of
      readings ([Clocked]).  The n-th call of [time_left()] answers
      [time_left n], whatever the environment decides.
    - [while True] in [get_move] is run with fuel; [None] means that the
      fuel ran out before the loop was left.
    - The board is the external collaborator [isolation.Board]; only its
      interface is known, it is the class [Board].
    - A depth is a natural number: with a negative depth the test
      [depth == 0] would never hold.
    - The line that prints when a score is a function object has no effect
      on what is returned and is left out. *)

From Stdlib Require Import List ZArith QArith Qcanon Bool String Arith Lia.
From Stdlib Require Import Orders OrdersTac.
Import ListNotations.
Close Scope Qc_scope.
Close Scope Q_scope.

Set Implicit Arguments.

(* ================================================================== *)
(** * Part I: definitions                                               *)
(* ================================================================== *)

(** ** Search values *)

Inductive SearchValue : Type :=
| NegInf                (* float("-inf") *)
| Fin (q : Qc)          (* a finite float *)
| PosInf.               (* float("inf") *)

Definition Qc_ltb (p q : Qc) : bool :=
  match (p ?= q)%Qc with Lt => true | _ => false end.

(** [x < y] on floats. *)
Definition lt_value (x y : SearchValue) : bool :=
  match x, y with
  | NegInf, NegInf => false
  | NegInf, _ => true
  | Fin _, NegInf => false
  | Fin p, Fin q => Qc_ltb p q
  | Fin _, PosInf => true
  | PosInf, _ => false
  end.

(** [x > y], [x <= y] and [x >= y] on floats (no NaN). *)
Definition gt_value (x y : SearchValue) : bool := lt_value y x.
Definition le_value (x y : SearchValue) : bool := negb (lt_value y x).
Definition ge_value (x y : SearchValue) : bool := negb (lt_value x y).

(** The builtins [max(a, b)] and [min(a, b)]: the first argument is kept
    unless the second is strictly better. *)
Definition py_max (a b : SearchValue) : SearchValue :=
  if gt_value b a then b else a.
Definition py_min (a b : SearchValue) : SearchValue :=
  if lt_value b a then b else a.

(** The order as propositions, for the proofs. *)
Module ValueOrder.
Definition t := SearchValue.
Definition eq : t -> t -> Prop := @Logic.eq SearchValue.
Definition lt (x y : t) : Prop := lt_value x y = true.
Definition le (x y : t) : Prop := le_value x y = true.
End ValueOrder.

(** ** Moves *)

Definition Move : Type := (Z * Z)%type.

(** The sentinel [(-1, -1)]. *)
Definition NO_MOVE : Move := ((-1)%Z, (-1)%Z).

(** ** The board interface *)

Class Board (B P : Type) : Type := {
  get_legal_moves : B -> P -> list Move;
  forecast_move : B -> Move -> B;
  get_opponent : B -> P -> P;
  is_winner : B -> P -> bool;
  is_loser : B -> P -> bool
}.

(** ** The scoring functions *)

Definition len {A : Type} (l : list A) : Qc :=
  Q2Qc (inject_Z (Z.of_nat (List.length l))).

(** The weights and the arithmetic are exact rationals.  They agree with
    the float computation of the source as long as the two products and
    their difference are representable without rounding or overflow, which
    is the case for the weights 1 and 1.5 of [custom_score] and every list
    of fewer than 2^51 moves.  No property below is stated for other
    weights. *)
Definition custom_score_weight {B P : Type} `{Board B P}
    (game : B) (player : P) (my_weight opp_weight : Qc) : SearchValue :=
  if is_loser game player then NegInf
  else if is_winner game player then PosInf
  else
    let my_moves := len (get_legal_moves game player) in
    let opp_moves := len (get_legal_moves game (get_opponent game player)) in
    Fin (my_weight * my_moves - opp_weight * opp_moves)%Qc.

Definition custom_score {B P : Type} `{Board B P} (game : B) (player : P)
    : SearchValue :=
  custom_score_weight game player (Q2Qc (1 # 1)) (Q2Qc (3 # 2)).

Definition use_alpha_beta_pruning (alpha beta : option SearchValue) : bool :=
  match alpha, beta with
  | Some _, Some _ => true
  | _, _ => false
  end.

(** ** Computations that read the clock and may raise [Timeout] *)

Inductive outcome (A : Type) : Type :=
| Returned (a : A)
| Raised.                (* raise Timeout() *)
Arguments Raised {A}.

Definition Clocked (A : Type) : Type := nat -> outcome A * nat.

Definition ret {A : Type} (a : A) : Clocked A := fun n => (Returned a, n).

Definition raise_Timeout {A : Type} : Clocked A := fun n => (Raised, n).

Definition bind {A C : Type} (c : Clocked A) (k : A -> Clocked C) : Clocked C :=
  fun n =>
    match c n with
    | (Returned a, n') => k a n'
    | (Raised, n') => (Raised, n')
    end.

Declare Scope clocked_scope.
Delimit Scope clocked_scope with clocked.
Notation "x <- c ;; k" := (bind c (fun x => k))
  (at level 61, c at next level, right associativity) : clocked_scope.
Notation "c ;;; k" := (bind c (fun _ => k))
  (at level 61, right associativity) : clocked_scope.
Local Open Scope clocked_scope.

(** ** The player *)

Record GamePlayer (B P : Type) : Type := {
  search_depth : nat;
  score : B -> P -> SearchValue;
  iterative : bool;
  method : string;
  TIMER_THRESHOLD : Qc;
  (* the identity under which the board knows this object ([self] when it
     is handed to the board or to the scoring function) *)
  player_id : P
}.

Definition set_search_depth {B P : Type} (self : GamePlayer B P) (d : nat)
    : GamePlayer B P :=
  {| search_depth := d; score := score self; iterative := iterative self;
     method := method self; TIMER_THRESHOLD := TIMER_THRESHOLD self;
     player_id := player_id self |}.

Section Search.

Context {B P : Type} `{Board B P}.
Variable self : GamePlayer B P.
(** [self.time_left]: the reading the clock gives at its n-th call. *)
Variable time_left : nat -> Qc.

(** The clock has expired at its n-th reading. *)
Definition expired (n : nat) : bool :=
  Qc_ltb (time_left n) (TIMER_THRESHOLD self - Q2Qc (3 # 1))%Qc.

Definition should_timeout : Clocked bool :=
  fun n => (Returned (expired n), S n).

(** [if self.should_timeout(): raise Timeout()] *)
Definition check_timeout : Clocked unit :=
  b <- should_timeout ;; if b then raise_Timeout else ret tt.

(** The [for move in available_my_moves] loop of [max_value]; [child] is
    the recursive call [self.min_value(_, depth - 1, _, _)]. *)
Fixpoint max_loop
    (child : B -> option SearchValue -> option SearchValue
             -> Clocked (SearchValue * Move))
    (game : B) (moves : list Move)
    (utility_score : SearchValue) (next_move : Move)
    (alpha beta : option SearchValue) : Clocked (SearchValue * Move) :=
  match moves with
  | [] => ret (utility_score, next_move)
  | move :: rest =>
      r <- child (forecast_move game move) alpha beta ;;
      let next_score := fst r in
      let best :=
        if lt_value utility_score next_score then (next_score, move)
        else (utility_score, next_move) in
      let utility_score := fst best in
      let next_move := snd best in
      if use_alpha_beta_pruning alpha beta then
        match alpha, beta with
        | Some a, Some b =>
            if ge_value utility_score b then ret (utility_score, next_move)
            else max_loop child game rest utility_score next_move
                   (Some (py_max a utility_score)) beta
        | _, _ => max_loop child game rest utility_score next_move alpha beta
        end
      else max_loop child game rest utility_score next_move alpha beta
  end.

(** The [for move in available_opponent_moves] loop of [min_value]. *)
Fixpoint min_loop
    (child : B -> option SearchValue -> option SearchValue
             -> Clocked (SearchValue * Move))
    (game : B) (moves : list Move)
    (utility_score : SearchValue) (next_move : Move)
    (alpha beta : option SearchValue) : Clocked (SearchValue * Move) :=
  match moves with
  | [] => ret (utility_score, next_move)
  | move :: rest =>
      r <- child (forecast_move game move) alpha beta ;;
      let next_score := fst r in
      let best :=
        if gt_value utility_score next_score then (next_score, move)
        else (utility_score, next_move) in
      let utility_score := fst best in
      let next_move := snd best in
      if use_alpha_beta_pruning alpha beta then
        match alpha, beta with
        | Some a, Some b =>
            if le_value utility_score a then ret (utility_score, next_move)
            else min_loop child game rest utility_score next_move
                   alpha (Some (py_min b utility_score))
        | _, _ => min_loop child game rest utility_score next_move alpha beta
        end
      else min_loop child game rest utility_score next_move alpha beta
  end.

Fixpoint max_value (depth : nat) (game : B)
    (alpha beta : option SearchValue) {struct depth}
    : Clocked (SearchValue * Move) :=
  check_timeout ;;;
  match depth with
  | O => ret (score self game (player_id self), NO_MOVE)
  | S depth' =>
      max_loop (min_value depth') game
        (get_legal_moves game (player_id self)) NegInf NO_MOVE alpha beta
  end
with min_value (depth : nat) (game : B)
    (alpha beta : option SearchValue) {struct depth}
    : Clocked (SearchValue * Move) :=
  check_timeout ;;;
  match depth with
  | O => ret (score self game (player_id self), NO_MOVE)
  | S depth' =>
      min_loop (max_value depth') game
        (get_legal_moves game (get_opponent game (player_id self)))
        PosInf NO_MOVE alpha beta
  end.

Definition minimax (game : B) (depth : nat) (maximizing_player : bool)
    : Clocked (SearchValue * Move) :=
  if maximizing_player then max_value depth game None None
  else min_value depth game None None.

Definition alphabeta (game : B) (depth : nat) (alpha beta : SearchValue)
    (maximizing_player : bool) : Clocked (SearchValue * Move) :=
  if maximizing_player then max_value depth game (Some alpha) (Some beta)
  else min_value depth game (Some alpha) (Some beta).

(** [self.minimax if self.method == 'minimax' else self.alphabeta], called
    as in [get_move] with the default arguments of either method. *)
Definition search_method (game : B) (depth : nat)
    : Clocked (SearchValue * Move) :=
  if String.eqb (method self) "minimax" then minimax game depth true
  else alphabeta game depth NegInf PosInf true.

(** The [while True] loop inside the [try] block.  It is only left by
    [Timeout]; what it hands to the handler is the local variable [move]
    as it stands at that moment. *)
Fixpoint while_true (fuel : nat) (game : B) (current_depth : nat)
    (move : Move) (n : nat) : option (Move * outcome unit * nat) :=
  match fuel with
  | O => None
  | S fuel' =>
      match search_method game current_depth n with
      | (Returned r, n') => while_true fuel' game (S current_depth) (snd r) n'
      | (Raised, n') => Some (move, Raised, n')
      end
  end.

(** The [try] block of [get_move], started with [move = (-1, -1)]. *)
Definition try_block (fuel : nat) (game : B) (n : nat)
    : option (Move * outcome unit * nat) :=
  let move := NO_MOVE in
  if iterative self then
    let current_depth := 1 in
    while_true fuel game current_depth move n
  else
    match search_method game (search_depth self) n with
    | (Returned r, n') => Some (snd r, Returned tt, n')
    | (Raised, n') => Some (move, Raised, n')
    end.

(** [get_move]: [except Timeout: pass], then [return move].  The argument
    [legal_moves] is not read by the body. *)
Definition get_move (fuel : nat) (game : B) (legal_moves : list Move)
    (n : nat) : option (outcome Move * nat) :=
  match try_block fuel game n with
  | None => None
  | Some (move, Returned _, n') => Some (Returned move, n')
  | Some (move, Raised, n') => Some (Returned move, n')
  end.

End Search.

(** ** What a search returns when it is not cancelled

    The same code read without the clock.  [max_value_returned] and
    [max_value_in_time] below tie it to [max_value]: a search that returns
    returns this pair, and a search that has time for all its nodes
    returns. *)

Section Results.

Context {B P : Type} `{Board B P}.
Variable self : GamePlayer B P.

Fixpoint max_scan
    (child : B -> option SearchValue -> option SearchValue
             -> SearchValue * Move)
    (game : B) (moves : list Move)
    (utility_score : SearchValue) (next_move : Move)
    (alpha beta : option SearchValue) : SearchValue * Move :=
  match moves with
  | [] => (utility_score, next_move)
  | move :: rest =>
      let next_score := fst (child (forecast_move game move) alpha beta) in
      let best :=
        if lt_value utility_score next_score then (next_score, move)
        else (utility_score, next_move) in
      let utility_score := fst best in
      let next_move := snd best in
      if use_alpha_beta_pruning alpha beta then
        match alpha, beta with
        | Some a, Some b =>
            if ge_value utility_score b then (utility_score, next_move)
            else max_scan child game rest utility_score next_move
                   (Some (py_max a utility_score)) beta
        | _, _ => max_scan child game rest utility_score next_move alpha beta
        end
      else max_scan child game rest utility_score next_move alpha beta
  end.

Fixpoint min_scan
    (child : B -> option SearchValue -> option SearchValue
             -> SearchValue * Move)
    (game : B) (moves : list Move)
    (utility_score : SearchValue) (next_move : Move)
    (alpha beta : option SearchValue) : SearchValue * Move :=
  match moves with
  | [] => (utility_score, next_move)
  | move :: rest =>
      let next_score := fst (child (forecast_move game move) alpha beta) in
      let best :=
        if gt_value utility_score next_score then (next_score, move)
        else (utility_score, next_move) in
      let utility_score := fst best in
      let next_move := snd best in
      if use_alpha_beta_pruning alpha beta then
        match alpha, beta with
        | Some a, Some b =>
            if le_value utility_score a then (utility_score, next_move)
            else min_scan child game rest utility_score next_move
                   alpha (Some (py_min b utility_score))
        | _, _ => min_scan child game rest utility_score next_move alpha beta
        end
      else min_scan child game rest utility_score next_move alpha beta
  end.

Fixpoint max_result (depth : nat) (game : B)
    (alpha beta : option SearchValue) {struct depth} : SearchValue * Move :=
  match depth with
  | O => (score self game (player_id self), NO_MOVE)
  | S depth' =>
      max_scan (min_result depth') game
        (get_legal_moves game (player_id self)) NegInf NO_MOVE alpha beta
  end
with min_result (depth : nat) (game : B)
    (alpha beta : option SearchValue) {struct depth} : SearchValue * Move :=
  match depth with
  | O => (score self game (player_id self), NO_MOVE)
  | S depth' =>
      min_scan (max_result depth') game
        (get_legal_moves game (get_opponent game (player_id self)))
        PosInf NO_MOVE alpha beta
  end.

(** The value of the child reached by [move], one ply below a maximizing
    (resp. minimizing) node searched without bounds. *)
Definition max_child_value (depth' : nat) (game : B) (move : Move)
    : SearchValue :=
  fst (min_result depth' (forecast_move game move) None None).
Definition min_child_value (depth' : nat) (game : B) (move : Move)
    : SearchValue :=
  fst (max_result depth' (forecast_move game move) None None).

(** The number of nodes of the game tree cut at [depth]: one per call of
    [max_value] or [min_value] in a search that visits every sibling. *)
Fixpoint max_nodes (depth : nat) (game : B) {struct depth} : nat :=
  match depth with
  | O => 1
  | S depth' =>
      S (list_sum (map (fun move => min_nodes depth' (forecast_move game move))
                       (get_legal_moves game (player_id self))))
  end
with min_nodes (depth : nat) (game : B) {struct depth} : nat :=
  match depth with
  | O => 1
  | S depth' =>
      S (list_sum (map (fun move => max_nodes depth' (forecast_move game move))
                       (get_legal_moves game
                          (get_opponent game (player_id self)))))
  end.

Definition tree_nodes (depth : nat) (game : B) (maximizing_player : bool)
    : nat :=
  if maximizing_player then max_nodes depth game else min_nodes depth game.

End Results.

(** ** Plain minimax, as the design describes it

    One traversal without bounds: every sibling of every node is visited
    and the best pair is replaced when [better best child] holds. *)

Section Plain.

Context {B P : Type} `{Board B P}.
Variable self : GamePlayer B P.
Variable time_left : nat -> Qc.

Fixpoint explore_all (better : SearchValue -> SearchValue -> bool)
    (child : B -> Clocked (SearchValue * Move))
    (game : B) (moves : list Move) (best : SearchValue * Move)
    : Clocked (SearchValue * Move) :=
  match moves with
  | [] => ret best
  | move :: rest =>
      r <- child (forecast_move game move) ;;
      explore_all better child game rest
        (if better (fst best) (fst r) then (fst r, move) else best)
  end.

Fixpoint plain_max (depth : nat) (game : B) {struct depth}
    : Clocked (SearchValue * Move) :=
  check_timeout self time_left ;;;
  match depth with
  | O => ret (score self game (player_id self), NO_MOVE)
  | S depth' =>
      explore_all lt_value (plain_min depth') game
        (get_legal_moves game (player_id self)) (NegInf, NO_MOVE)
  end
with plain_min (depth : nat) (game : B) {struct depth}
    : Clocked (SearchValue * Move) :=
  check_timeout self time_left ;;;
  match depth with
  | O => ret (score self game (player_id self), NO_MOVE)
  | S depth' =>
      explore_all gt_value (plain_max depth') game
        (get_legal_moves game (get_opponent game (player_id self)))
        (PosInf, NO_MOVE)
  end.

(** The first [k] passes of the deepening loop when each of them
    completes: pass number [j] (counted from 1) searches the depth
    [first_depth + (j - 1)].  The result is the move recorded by the last
    pass ([move] when [k = 0]) and the clock after it; [None] when one of
    the passes is cancelled. *)
Fixpoint completed_passes (k : nat) (game : B) (first_depth : nat)
    (move : Move) (n : nat) : option (Move * nat) :=
  match k with
  | O => Some (move, n)
  | S k' =>
      match completed_passes k' game first_depth move n with
      | Some (_, n1) =>
          match search_method self time_left game (first_depth + k') n1 with
          | (Returned r, n2) => Some (snd r, n2)
          | (Raised, _) => None
          end
      | None => None
      end
  end.

End Plain.

(** ** A small board for the examples

    A position is a node of an explicit game tree: who is to move, the
    score the evaluator gives it, and the positions its moves lead to.
    A player is [true] (the searching player) or [false]. *)

#[warnings="-register-all"]
Inductive Tree : Type :=
| Node (to_move : bool) (value : SearchValue) (children : list (Move * Tree)).

Definition tree_children (t : Tree) : list (Move * Tree) :=
  match t with Node _ _ cs => cs end.
Definition tree_value (t : Tree) : SearchValue :=
  match t with Node _ v _ => v end.
Definition tree_to_move (t : Tree) : bool :=
  match t with Node p _ _ => p end.

Definition move_eqb (a b : Move) : bool :=
  (Z.eqb (fst a) (fst b) && Z.eqb (snd a) (snd b))%bool.

Definition tree_forecast (t : Tree) (m : Move) : Tree :=
  match find (fun c => move_eqb (fst c) m) (tree_children t) with
  | Some c => snd c
  | None => t
  end.

#[export] Instance TreeBoard : Board Tree bool := {|
  get_legal_moves := fun t _ => map fst (tree_children t);
  forecast_move := tree_forecast;
  get_opponent := fun _ p => negb p;
  is_winner := fun t p =>
    (negb (Bool.eqb p (tree_to_move t)) && forallb (fun _ => false) (tree_children t))%bool;
  is_loser := fun t p =>
    (Bool.eqb p (tree_to_move t) && forallb (fun _ => false) (tree_children t))%bool
|}.

(** A board that only knows the moves each side has: the searching player
    ([true]) has the first list, the opponent the second.  A player without
    moves has lost, and has won when only the opponent is without moves. *)
#[export] Instance CountBoard : Board (list Move * list Move) bool := {|
  get_legal_moves := fun (b : list Move * list Move) (p : bool) => if p then fst b else snd b;
  forecast_move := fun (b : list Move * list Move) (_ : Move) => b;
  get_opponent := fun (_ : list Move * list Move) (p : bool) => negb p;
  is_winner := fun (b : list Move * list Move) (p : bool) =>
    match (if p then fst b else snd b), (if p then snd b else fst b) with
    | _ :: _, [] => true
    | _, _ => false
    end;
  is_loser := fun (b : list Move * list Move) (p : bool) =>
    match (if p then fst b else snd b) with
    | [] => true
    | _ :: _ => false
    end
|}.

Definition num (z : Z) : SearchValue := Fin (Q2Qc (inject_Z z)).
Definition leaf (p : bool) (z : Z) : Tree := Node p (num z) [].

Definition move_A : Move := (0%Z, 0%Z).
Definition move_B : Move := (0%Z, 1%Z).
Definition move_C : Move := (0%Z, 2%Z).

(** The synthetic one-ply position with moves scored A: 5, B: 5, C: 9. *)
Definition one_ply : Tree :=
  Node true (num 0) [(move_A, leaf false 5); (move_B, leaf false 5); (move_C, leaf false 9)].

(** A and B tie at the maximum. *)
Definition tie_ply : Tree :=
  Node true (num 0) [(move_C, leaf false 5); (move_A, leaf false 9); (move_B, leaf false 9)].

(** Every move evaluates to minus infinity. *)
Definition lost_ply : Tree :=
  Node true (num 0)
    [(move_A, Node false NegInf []); (move_B, Node false NegInf [])].

(** Three moves for the player, one for the opponent. *)
Definition three_to_one : list Move * list Move :=
  ([move_A; move_B; move_C], [move_A]).

(** A position without moves that the evaluator scores 0. *)
Definition stuck : Tree := Node true (num 0) [].

(** A two-ply tree on which alpha-beta cuts a branch. *)
Definition two_ply : Tree :=
  Node true (num 0)
    [(move_A, Node false (num 1) [(move_A, leaf true 3); (move_B, leaf true 5)]);
     (move_B, Node false (num 7) [(move_A, leaf true 2); (move_B, leaf true 9)]);
     (move_C, Node false (num 2) [(move_A, leaf true 3); (move_C, leaf true 4)])].

(** The evaluator of the examples: the score written in the node. *)
Definition tree_score (t : Tree) (_ : bool) : SearchValue := tree_value t.

Definition player (minimax_or_alphabeta : string) (iter : bool) (d : nat)
    : GamePlayer Tree bool :=
  {| search_depth := d; score := tree_score; iterative := iter;
     method := minimax_or_alphabeta; TIMER_THRESHOLD := Q2Qc (10 # 1);
     player_id := true |}.

(** Clocks, in milliseconds left: one that never runs low, one that is
    low from the start, one that runs low at the reading [k]. *)
Definition plenty : nat -> Qc := fun _ => Q2Qc (150 # 1).
Definition none_left : nat -> Qc := fun _ => Q2Qc (0 # 1).
Definition low_from (k : nat) : nat -> Qc :=
  fun n => if Nat.ltb n k then Q2Qc (150 # 1) else Q2Qc (0 # 1).


(** ** The contract of a search window

    [within alpha beta v r]: the value [r] found inside the window
    [(alpha, beta)] stands for the exact value [v] as far as the window
    can tell: it is [v] when [v] lies inside, and it falls on the same
    side of the window when [v] lies outside. *)
Definition within (alpha beta v r : SearchValue) : Prop :=
  (ValueOrder.le v alpha -> ValueOrder.le r alpha) /\
  (ValueOrder.le beta v -> ValueOrder.le beta r) /\
  (ValueOrder.lt alpha v -> ValueOrder.lt v beta -> r = v).

(** ** Readings of the clock

    [quiet expired n n']: none of the readings [n], ..., [n' - 1] finds the
    time budget used up. *)
Definition quiet (expired : nat -> bool) (n n' : nat) : Prop :=
  forall i, n <= i < n' -> expired i = false.

(** What a run from reading [n] to reading [n'] tells about the clock: a
    run that returns saw no expiry, a cancelled run ended on an expired
    reading. *)
Definition clock_sound (expired : nat -> bool) {A : Type}
    (n : nat) (run : outcome A * nat) : Prop :=
  match run with
  | (Returned _, n') => n <= n' /\ quiet expired n n'
  | (Raised, n') => n < n' /\ expired (pred n') = true
  end.

(** A move that a node may hand back: the sentinel or one of the moves
    the node enumerated. *)
Definition legal_or_sentinel (moves : list Move) (move : Move) : Prop :=
  move = NO_MOVE \/ In move moves.

(** A run started at reading [n] that visits a tree of [nodes] nodes:
    one reading per node when it returns, no more when it is cancelled. *)
Definition visits {A : Type} (n nodes : nat) (run : outcome A * nat) : Prop :=
  match run with
  | (Returned _, n') => n' = n + nodes
  | (Raised, n') => n' <= n + nodes
  end.

(** A run that stops on the first expired reading: a run that returns
    saw none, a cancelled run saw none before its last reading, which is
    expired. *)
Definition prompt (expired : nat -> bool) {A : Type}
    (n : nat) (run : outcome A * nat) : Prop :=
  match run with
  | (Returned _, n') => n <= n' /\ quiet expired n n'
  | (Raised, n') => n < n' /\ quiet expired n (pred n') /\ expired (pred n') = true
  end.

(** The positions a search can reach from [game] by applying moves. *)
Inductive reachable {B P : Type} `{Board B P} (game : B) : B -> Prop :=
| reach_here : reachable game game
| reach_move : forall g move, reachable game g ->
                              reachable game (forecast_move g move).

(** A value that the search did not invent: an infinity, or the score the
    evaluator gives to a position reachable from [game]. *)
Definition evaluator_value {B P : Type} `{Board B P} (self : GamePlayer B P)
    (game : B) (v : SearchValue) : Prop :=
  v = NegInf \/ v = PosInf \/
  exists g, reachable game g /\ v = score self g (player_id self).

(* ================================================================== *)
(** * Part II: properties                                               *)
(* ================================================================== *)

(** ** The order on search values *)

Lemma Qc_ltb_lt (p q : Qc) : Qc_ltb p q = true <-> (p < q)%Qc.
Proof.
  unfold Qc_ltb. rewrite Qclt_alt.
  destruct (p ?= q)%Qc; split; congruence.
Qed.

Lemma lt_value_irrefl (x : SearchValue) : lt_value x x = false.
Proof.
  destruct x as [|q|]; simpl; trivial.
  destruct (Qc_ltb q q) eqn:E; trivial.
  apply Qc_ltb_lt, Qclt_not_le in E. exfalso. apply E, Qcle_refl.
Qed.

Lemma lt_value_trans (x y z : SearchValue) :
  lt_value x y = true -> lt_value y z = true -> lt_value x z = true.
Proof.
  destruct x as [|p|], y as [|q|], z as [|r|]; simpl; trivial; try discriminate.
  rewrite !Qc_ltb_lt. apply Qclt_trans.
Qed.

Lemma lt_value_total (x y : SearchValue) :
  lt_value x y = true \/ x = y \/ lt_value y x = true.
Proof.
  destruct x as [|p|], y as [|q|]; simpl; auto.
  rewrite !Qc_ltb_lt.
  destruct (Qc_dec p q) as [[L | G] | E]; auto.
  subst. auto.
Qed.

Module ValueOrderFacts <: IsTotalOrder ValueOrder.
Import ValueOrder.

#[export] Instance eq_equiv : Equivalence eq.
Proof. unfold eq. exact eq_equivalence. Qed.

#[export] Instance lt_strorder : StrictOrder lt.
Proof.
  split.
  - intros x L. unfold lt in L. rewrite lt_value_irrefl in L. discriminate.
  - intros x y z. apply lt_value_trans.
Qed.

#[export] Instance lt_compat : Proper (eq ==> eq ==> iff) lt.
Proof. intros x x' Ex y y' Ey. unfold eq in *. subst. reflexivity. Qed.

Lemma le_lteq : forall x y, le x y <-> lt x y \/ eq x y.
Proof.
  intros x y. unfold le, lt, eq, le_value.
  destruct (lt_value_total x y) as [L | [E | G]].
  - split; auto. intros _.
    destruct (lt_value y x) eqn:G; trivial.
    pose proof (lt_value_trans _ _ _ L G) as R.
    rewrite lt_value_irrefl in R. discriminate.
  - subst. rewrite lt_value_irrefl. simpl. tauto.
  - rewrite G. simpl. split; [discriminate |].
    intros [L | E].
    + pose proof (lt_value_trans _ _ _ L G) as R.
      rewrite lt_value_irrefl in R. discriminate.
    + subst. rewrite lt_value_irrefl in G. discriminate.
Qed.

Lemma lt_total : forall x y, lt x y \/ eq x y \/ lt y x.
Proof. exact lt_value_total. Qed.
End ValueOrderFacts.

Module ValueOrderTac := !MakeOrderTac ValueOrder ValueOrderFacts.

Lemma lt_value_false (x y : SearchValue) :
  lt_value x y = false <-> ValueOrder.le y x.
Proof.
  unfold ValueOrder.le, le_value. destruct (lt_value x y); simpl; intuition congruence.
Qed.

(** Turns the boolean tests of the code into order facts and decides the
    goal in the theory of total orders. *)
Ltac bool_to_order :=
  unfold ge_value, gt_value, le_value in *;
  repeat match goal with
  | H : negb _ = true |- _ => apply negb_true_iff in H
  | H : negb _ = false |- _ => apply negb_false_iff in H
  | |- negb _ = true => apply negb_true_iff
  | |- negb _ = false => apply negb_false_iff
  end;
  repeat match goal with
  | H : lt_value ?x ?y = true |- _ => change (ValueOrder.lt x y) in H
  | H : lt_value ?x ?y = false |- _ => apply lt_value_false in H
  | |- lt_value ?x ?y = true => change (ValueOrder.lt x y)
  | |- lt_value ?x ?y = false => apply (proj2 (lt_value_false x y))
  end.

Ltac value_order := bool_to_order; ValueOrderTac.order.

Lemma NegInf_least (x : SearchValue) : ValueOrder.le NegInf x.
Proof. destruct x; reflexivity. Qed.

Lemma PosInf_greatest (x : SearchValue) : ValueOrder.le x PosInf.
Proof. destruct x; reflexivity. Qed.

Lemma below_PosInf (x : SearchValue) : x <> PosInf -> ValueOrder.lt x PosInf.
Proof. destruct x; intros N; try reflexivity. congruence. Qed.

Lemma above_NegInf (x : SearchValue) : x <> NegInf -> ValueOrder.lt NegInf x.
Proof. destruct x; intros N; try reflexivity. congruence. Qed.

Lemma py_max_cases (a b : SearchValue) :
  (ValueOrder.lt a b /\ py_max a b = b) \/ (ValueOrder.le b a /\ py_max a b = a).
Proof.
  unfold py_max, gt_value. destruct (lt_value a b) eqn:E.
  - left. split; trivial.
  - right. split; trivial. apply lt_value_false. exact E.
Qed.

Lemma py_min_cases (a b : SearchValue) :
  (ValueOrder.lt b a /\ py_min a b = b) \/ (ValueOrder.le a b /\ py_min a b = a).
Proof.
  unfold py_min. destruct (lt_value b a) eqn:E.
  - left. split; trivial.
  - right. split; trivial. apply lt_value_false. exact E.
Qed.


(** ** Unfolding the searches *)

Section SearchFacts.

Context {B P : Type} `{Board B P}.
Variable self : GamePlayer B P.
Variable time_left : nat -> Qc.


Lemma check_timeout_bind {A : Type} (k : Clocked A) (n : nat) :
  (check_timeout self time_left ;;; k) n = if expired self time_left n then (Raised, S n) else k (S n).
Proof.
  unfold bind, check_timeout, should_timeout, bind.
  destruct (expired self time_left n); reflexivity.
Qed.

Lemma max_value_eq (depth : nat) (game : B) (alpha beta : option SearchValue) :
  max_value self time_left depth game alpha beta =
  (check_timeout self time_left ;;;
   match depth with
   | O => ret (score self game (player_id self), NO_MOVE)
   | S depth' =>
       max_loop (min_value self time_left depth') game
         (get_legal_moves game (player_id self)) NegInf NO_MOVE alpha beta
   end).
Proof. destruct depth; reflexivity. Qed.

Lemma min_value_eq (depth : nat) (game : B) (alpha beta : option SearchValue) :
  min_value self time_left depth game alpha beta =
  (check_timeout self time_left ;;;
   match depth with
   | O => ret (score self game (player_id self), NO_MOVE)
   | S depth' =>
       min_loop (max_value self time_left depth') game
         (get_legal_moves game (get_opponent game (player_id self)))
         PosInf NO_MOVE alpha beta
   end).
Proof. destruct depth; reflexivity. Qed.

(** *** A search that returns, returns the clock-free result *)

Section ReturnedLoops.

Variable child : B -> option SearchValue -> option SearchValue
                 -> Clocked (SearchValue * Move).
Variable child_result : B -> option SearchValue -> option SearchValue
                        -> SearchValue * Move.
Hypothesis child_returned : forall g a b n r n',
  child g a b n = (Returned r, n') -> r = child_result g a b.

Lemma max_loop_returned (game : B) (moves : list Move) :
  forall u m a b n r n',
    max_loop child game moves u m a b n = (Returned r, n') ->
    r = max_scan child_result game moves u m a b.
Proof.
  induction moves as [| move rest IH]; intros u m a b n r n' R.
  - simpl in *. unfold ret in R. congruence.
  - simpl in R. unfold bind in R.
    destruct (child (forecast_move game move) a b n) as [[c |] n1] eqn:E;
      [| discriminate].
    apply child_returned in E. subst c. simpl.
    destruct (use_alpha_beta_pruning a b).
    + destruct a as [a |], b as [b |]; try (eapply IH; eassumption).
      destruct (ge_value _ b).
      * unfold ret in R. congruence.
      * eapply IH; eassumption.
    + eapply IH; eassumption.
Qed.

Lemma min_loop_returned (game : B) (moves : list Move) :
  forall u m a b n r n',
    min_loop child game moves u m a b n = (Returned r, n') ->
    r = min_scan child_result game moves u m a b.
Proof.
  induction moves as [| move rest IH]; intros u m a b n r n' R.
  - simpl in *. unfold ret in R. congruence.
  - simpl in R. unfold bind in R.
    destruct (child (forecast_move game move) a b n) as [[c |] n1] eqn:E;
      [| discriminate].
    apply child_returned in E. subst c. simpl.
    destruct (use_alpha_beta_pruning a b).
    + destruct a as [a |], b as [b |]; try (eapply IH; eassumption).
      destruct (le_value _ a).
      * unfold ret in R. congruence.
      * eapply IH; eassumption.
    + eapply IH; eassumption.
Qed.

End ReturnedLoops.

Lemma search_returned (depth : nat) :
  (forall game a b n r n',
     max_value self time_left depth game a b n = (Returned r, n') ->
     r = max_result self depth game a b) /\
  (forall game a b n r n',
     min_value self time_left depth game a b n = (Returned r, n') ->
     r = min_result self depth game a b).
Proof.
  induction depth as [| d [IHmax IHmin]]; split; intros game a b n r n' R.
  - rewrite max_value_eq, check_timeout_bind in R.
    destruct (expired self time_left n); [discriminate |]. unfold ret in R. simpl. congruence.
  - rewrite min_value_eq, check_timeout_bind in R.
    destruct (expired self time_left n); [discriminate |]. unfold ret in R. simpl. congruence.
  - rewrite max_value_eq, check_timeout_bind in R.
    destruct (expired self time_left n); [discriminate |].
    simpl. eapply max_loop_returned; eassumption.
  - rewrite min_value_eq, check_timeout_bind in R.
    destruct (expired self time_left n); [discriminate |].
    simpl. eapply min_loop_returned; eassumption.
Qed.

Lemma max_value_returned depth game a b n r n' :
  max_value self time_left depth game a b n = (Returned r, n') ->
  r = max_result self depth game a b.
Proof. apply (search_returned depth). Qed.

Lemma min_value_returned depth game a b n r n' :
  min_value self time_left depth game a b n = (Returned r, n') ->
  r = min_result self depth game a b.
Proof. apply (search_returned depth). Qed.

End SearchFacts.

(** ** Pruning does not change the result *)

Section AlphaBeta.

Context {B P : Type} `{Board B P}.
Variable self : GamePlayer B P.

Lemma within_exact (a b v : SearchValue) : within a b v v.
Proof. unfold within. auto. Qed.

Section Scans.

Variable child : B -> option SearchValue -> option SearchValue
                 -> SearchValue * Move.
Variable game : B.

Lemma max_scan_grows (moves : list Move) :
  forall (u : SearchValue) (m : Move) (a b : option SearchValue),
    ValueOrder.le u (fst (max_scan child game moves u m a b)).
Proof.
  induction moves as [| move rest IH]; intros u m a b; simpl.
  - value_order.
  - set (c := fst (child (forecast_move game move) a b)).
    assert (G : forall m1 m2 : Move,
               ValueOrder.le u
                 (fst (if lt_value u c then (c, m1) else (u, m2)))).
    { intros m1 m2. destruct (lt_value u c) eqn:E; simpl; value_order. }
    destruct (use_alpha_beta_pruning a b);
      [destruct a as [a |], b as [b |] |];
      try (eapply ValueOrderTac.le_trans; [apply G | apply IH]).
    destruct (ge_value _ b).
    + apply G.
    + eapply ValueOrderTac.le_trans; [apply G | apply IH].
Qed.

Lemma min_scan_shrinks (moves : list Move) :
  forall (u : SearchValue) (m : Move) (a b : option SearchValue),
    ValueOrder.le (fst (min_scan child game moves u m a b)) u.
Proof.
  induction moves as [| move rest IH]; intros u m a b; simpl.
  - value_order.
  - set (c := fst (child (forecast_move game move) a b)).
    assert (G : forall m1 m2 : Move,
               ValueOrder.le
                 (fst (if gt_value u c then (c, m1) else (u, m2))) u).
    { intros m1 m2. destruct (gt_value u c) eqn:E; simpl; value_order. }
    destruct (use_alpha_beta_pruning a b);
      [destruct a as [a |], b as [b |] |];
      try (eapply ValueOrderTac.le_trans; [apply IH | apply G]).
    destruct (le_value _ a).
    + apply G.
    + eapply ValueOrderTac.le_trans; [apply IH | apply G].
Qed.

(** The children keep the window contract. *)
Hypothesis child_within : forall (g : B) (a b : SearchValue),
  ValueOrder.lt a b ->
  within a b (fst (child g None None)) (fst (child g (Some a) (Some b))).

Lemma max_scan_within (moves : list Move) :
  forall (u : SearchValue) (m : Move) (um : SearchValue) (mm : Move)
         (a b : SearchValue),
    ValueOrder.le u a -> ValueOrder.le um a -> ValueOrder.lt a b ->
    within a b
      (fst (max_scan child game moves um mm None None))
      (fst (max_scan child game moves u m (Some a) (Some b))).
Proof.
  induction moves as [| move rest IH]; intros u m um mm a b Hu Hum Hab.
  - simpl. unfold within. repeat split; intros; value_order.
  - simpl.
    pose proof (child_within (forecast_move game move) Hab) as (C1 & C2 & C3).
    set (vc := fst (child (forecast_move game move) None None)) in *.
    set (rc := fst (child (forecast_move game move) (Some a) (Some b))) in *.
    destruct (lt_value a vc) eqn:E1; [destruct (lt_value vc b) eqn:E2 |].
    + (* the child lies inside the window *)
      assert (rc = vc) as -> by (apply C3; value_order).
      replace (lt_value u vc) with true by (symmetry; value_order).
      replace (lt_value um vc) with true by (symmetry; value_order).
      simpl.
      replace (ge_value vc b) with false by (symmetry; value_order).
      destruct (py_max_cases a vc) as [[_ ->] | [F _]];
        [| exfalso; value_order].
      assert (I : within vc b
                 (fst (max_scan child game rest vc move None None))
                 (fst (max_scan child game rest vc move (Some vc) (Some b))))
        by (apply IH; value_order).
      pose proof (max_scan_grows rest vc move None None) as G1.
      pose proof (max_scan_grows rest vc move (Some vc) (Some b)) as G2.
      destruct I as (I1 & I2 & I3).
      unfold within. repeat split; intros.
      * exfalso. value_order.
      * auto.
      * destruct (lt_value vc (fst (max_scan child game rest vc move None None)))
          eqn:E3.
        -- apply I3; value_order.
        -- assert (ValueOrder.le
                     (fst (max_scan child game rest vc move (Some vc) (Some b)))
                     vc) by (apply I1; value_order).
           value_order.
    + (* the child reaches beta: cutoff *)
      assert (ValueOrder.le b rc) by (apply C2; value_order).
      replace (lt_value u rc) with true by (symmetry; value_order).
      replace (lt_value um vc) with true by (symmetry; value_order).
      simpl.
      replace (ge_value rc b) with true by (symmetry; value_order).
      simpl.
      pose proof (max_scan_grows rest vc move None None) as G1.
      unfold within. repeat split; intros; try (exfalso; value_order).
      value_order.
    + (* the child lies below alpha *)
      assert (ValueOrder.le rc a) by (apply C1; value_order).
      set (best := if lt_value u rc then _ else _).
      set (mbest := if lt_value um vc then _ else _).
      assert (ValueOrder.le (fst best) a)
        by (unfold best; destruct (lt_value u rc); simpl; value_order).
      assert (ValueOrder.le (fst mbest) a)
        by (unfold mbest; destruct (lt_value um vc); simpl; value_order).
      replace (ge_value (fst best) b) with false by (symmetry; value_order).
      destruct (py_max_cases a (fst best)) as [[F _] | [_ ->]];
        [exfalso; value_order |].
      apply IH; assumption.
Qed.

Lemma min_scan_within (moves : list Move) :
  forall (u : SearchValue) (m : Move) (um : SearchValue) (mm : Move)
         (a b : SearchValue),
    ValueOrder.le b u -> ValueOrder.le b um -> ValueOrder.lt a b ->
    within a b
      (fst (min_scan child game moves um mm None None))
      (fst (min_scan child game moves u m (Some a) (Some b))).
Proof.
  induction moves as [| move rest IH]; intros u m um mm a b Hu Hum Hab.
  - simpl. unfold within. repeat split; intros; value_order.
  - simpl.
    pose proof (child_within (forecast_move game move) Hab) as (C1 & C2 & C3).
    set (vc := fst (child (forecast_move game move) None None)) in *.
    set (rc := fst (child (forecast_move game move) (Some a) (Some b))) in *.
    destruct (lt_value vc b) eqn:E1; [destruct (lt_value a vc) eqn:E2 |].
    + (* the child lies inside the window *)
      assert (rc = vc) as -> by (apply C3; value_order).
      replace (gt_value u vc) with true by (symmetry; value_order).
      replace (gt_value um vc) with true by (symmetry; value_order).
      simpl.
      replace (le_value vc a) with false by (symmetry; value_order).
      destruct (py_min_cases b vc) as [[_ ->] | [F _]];
        [| exfalso; value_order].
      assert (I : within a vc
                 (fst (min_scan child game rest vc move None None))
                 (fst (min_scan child game rest vc move (Some a) (Some vc))))
        by (apply IH; value_order).
      pose proof (min_scan_shrinks rest vc move None None) as G1.
      pose proof (min_scan_shrinks rest vc move (Some a) (Some vc)) as G2.
      destruct I as (I1 & I2 & I3).
      unfold within. repeat split; intros.
      * auto.
      * exfalso. value_order.
      * destruct (lt_value (fst (min_scan child game rest vc move None None)) vc)
          eqn:E3.
        -- apply I3; value_order.
        -- assert (ValueOrder.le vc
                     (fst (min_scan child game rest vc move (Some a) (Some vc))))
             by (apply I2; value_order).
           value_order.
    + (* the child reaches alpha: cutoff *)
      assert (ValueOrder.le rc a) by (apply C1; value_order).
      replace (gt_value u rc) with true by (symmetry; value_order).
      replace (gt_value um vc) with true by (symmetry; value_order).
      simpl.
      replace (le_value rc a) with true by (symmetry; value_order).
      simpl.
      pose proof (min_scan_shrinks rest vc move None None) as G1.
      unfold within. repeat split; intros; try (exfalso; value_order).
      value_order.
    + (* the child lies above beta *)
      assert (ValueOrder.le b rc) by (apply C2; value_order).
      set (best := if gt_value u rc then _ else _).
      set (mbest := if gt_value um vc then _ else _).
      assert (ValueOrder.le b (fst best))
        by (unfold best; destruct (gt_value u rc); simpl; value_order).
      assert (ValueOrder.le b (fst mbest))
        by (unfold mbest; destruct (gt_value um vc); simpl; value_order).
      replace (le_value (fst best) a) with false by (symmetry; value_order).
      destruct (py_min_cases b (fst best)) as [[F _] | [_ ->]];
        [exfalso; value_order |].
      apply IH; assumption.
Qed.

(** Nothing replaces a best value that is already extreme. *)
Lemma max_scan_PosInf (moves : list Move) (m : Move) :
  max_scan child game moves PosInf m None None = (PosInf, m).
Proof.
  induction moves as [| move rest IH]; simpl; trivial.
Qed.

Lemma min_scan_NegInf (moves : list Move) (m : Move) :
  min_scan child game moves NegInf m None None = (NegInf, m).
Proof.
  induction moves as [| move rest IH]; simpl; trivial.
  unfold gt_value.
  destruct (fst (child (forecast_move game move) None None)); simpl; exact IH.
Qed.

(** At the root the window is [(-inf, +inf)] and alpha follows the best
    value: both searches take the same decisions. *)
Lemma max_scan_root (moves : list Move) :
  forall (u : SearchValue) (m : Move),
    ValueOrder.lt u PosInf ->
    max_scan child game moves u m (Some u) (Some PosInf) =
    max_scan child game moves u m None None.
Proof.
  induction moves as [| move rest IH]; intros u m Hu; simpl; trivial.
  pose proof (child_within (forecast_move game move) Hu) as (C1 & C2 & C3).
  set (vc := fst (child (forecast_move game move) None None)) in *.
  set (rc := fst (child (forecast_move game move) (Some u) (Some PosInf))) in *.
  pose proof (PosInf_greatest rc) as Grc.
  pose proof (PosInf_greatest vc) as Gvc.
  destruct (lt_value u vc) eqn:E1.
  - assert (rc = vc) as ->.
    { destruct (lt_value vc PosInf) eqn:E2.
      - apply C3; value_order.
      - assert (ValueOrder.le PosInf rc) by (apply C2; value_order).
        value_order. }
    rewrite E1. simpl.
    destruct (ge_value vc PosInf) eqn:E3.
    + assert (vc = PosInf) as -> by value_order.
      rewrite max_scan_PosInf. reflexivity.
    + destruct (py_max_cases u vc) as [[_ ->] | [F _]];
        [| exfalso; value_order].
      apply IH. value_order.
  - assert (ValueOrder.le rc u) by (apply C1; value_order).
    replace (lt_value u rc) with false by (symmetry; value_order).
    simpl.
    replace (ge_value u PosInf) with false by (symmetry; value_order).
    destruct (py_max_cases u u) as [[F _] | [_ ->]];
      [exfalso; value_order |].
    apply IH. assumption.
Qed.

Lemma min_scan_root (moves : list Move) :
  forall (u : SearchValue) (m : Move),
    ValueOrder.lt NegInf u ->
    min_scan child game moves u m (Some NegInf) (Some u) =
    min_scan child game moves u m None None.
Proof.
  induction moves as [| move rest IH]; intros u m Hu; simpl; trivial.
  pose proof (child_within (forecast_move game move) Hu) as (C1 & C2 & C3).
  set (vc := fst (child (forecast_move game move) None None)) in *.
  set (rc := fst (child (forecast_move game move) (Some NegInf) (Some u))) in *.
  pose proof (NegInf_least rc) as Grc.
  pose proof (NegInf_least vc) as Gvc.
  destruct (gt_value u vc) eqn:E1.
  - assert (rc = vc) as ->.
    { destruct (lt_value NegInf vc) eqn:E2.
      - apply C3; value_order.
      - assert (ValueOrder.le rc NegInf) by (apply C1; value_order).
        value_order. }
    rewrite E1. simpl.
    destruct (le_value vc NegInf) eqn:E3.
    + assert (vc = NegInf) as -> by value_order.
      rewrite min_scan_NegInf. reflexivity.
    + destruct (py_min_cases u vc) as [[_ ->] | [F _]];
        [| exfalso; value_order].
      apply IH. value_order.
  - assert (ValueOrder.le u rc) by (apply C2; value_order).
    replace (gt_value u rc) with false by (symmetry; value_order).
    simpl.
    replace (le_value u NegInf) with false by (symmetry; value_order).
    destruct (py_min_cases u u) as [[F _] | [_ ->]];
      [exfalso; value_order |].
    apply IH. assumption.
Qed.

End Scans.

(** Every node keeps the window contract. *)
Lemma result_within (depth : nat) :
  (forall (game : B) (a b : SearchValue),
     ValueOrder.lt a b ->
     within a b (fst (max_result self depth game None None))
                (fst (max_result self depth game (Some a) (Some b)))) /\
  (forall (game : B) (a b : SearchValue),
     ValueOrder.lt a b ->
     within a b (fst (min_result self depth game None None))
                (fst (min_result self depth game (Some a) (Some b)))).
Proof.
  induction depth as [| d [IHmax IHmin]]; split; intros game a b Hab;
    try apply within_exact.
  - simpl. apply max_scan_within; trivial; apply NegInf_least.
  - simpl. apply min_scan_within; trivial; apply PosInf_greatest.
Qed.

(** Alpha-beta from the full window and minimax agree on the value and
    on the move, at maximizing and at minimizing roots. *)
Lemma max_result_full_window (depth : nat) (game : B) :
  max_result self depth game (Some NegInf) (Some PosInf) =
  max_result self depth game None None.
Proof.
  destruct depth as [| d]; trivial.
  simpl. apply max_scan_root; [| reflexivity].
  intros g a b. apply (result_within d).
Qed.

Lemma min_result_full_window (depth : nat) (game : B) :
  min_result self depth game (Some NegInf) (Some PosInf) =
  min_result self depth game None None.
Proof.
  destruct depth as [| d]; trivial.
  simpl. apply min_scan_root; [| reflexivity].
  intros g a b. apply (result_within d).
Qed.

End AlphaBeta.

(** ** The searches and the clock *)

Lemma quiet_refl (expired : nat -> bool) (n : nat) : quiet expired n n.
Proof. intros i Hi. lia. Qed.

Lemma quiet_trans (expired : nat -> bool) (n n1 n2 : nat) :
  quiet expired n n1 -> quiet expired n1 n2 -> quiet expired n n2.
Proof.
  intros Q1 Q2 i Hi.
  destruct (Nat.lt_ge_cases i n1); [apply Q1 | apply Q2]; lia.
Qed.

Lemma clock_sound_step (expired : nat -> bool) {A : Type}
    (n n1 : nat) (run : outcome A * nat) :
  n <= n1 -> quiet expired n n1 ->
  clock_sound expired n1 run -> clock_sound expired n run.
Proof.
  intros L Q. destruct run as [[r |] n2]; simpl.
  - intros [L2 Q2]. split; [lia | eapply quiet_trans; eassumption].
  - intros [L2 E]. split; [lia | exact E].
Qed.

Section ClockFacts.

Context {B P : Type} `{Board B P}.
Variable self : GamePlayer B P.
Variable time_left : nat -> Qc.

Section SoundLoops.

Variable child : B -> option SearchValue -> option SearchValue
                 -> Clocked (SearchValue * Move).
Hypothesis child_sound : forall g a b n,
  clock_sound (expired self time_left) n (child g a b n).

Lemma max_loop_sound (game : B) (moves : list Move) :
  forall u m a b n,
    clock_sound (expired self time_left) n
      (max_loop child game moves u m a b n).
Proof.
  induction moves as [| move rest IH]; intros u m a b n.
  - simpl. split; [lia | apply quiet_refl].
  - simpl. unfold bind.
    pose proof (child_sound (forecast_move game move) a b n) as S.
    destruct (child (forecast_move game move) a b n) as [[c |] n1];
      [| exact S].
    destruct S as [L Q].
    destruct (use_alpha_beta_pruning a b);
      [destruct a as [a |], b as [b |] |];
      try (eapply clock_sound_step; [exact L | exact Q | apply IH]).
    destruct (ge_value _ b).
    + split; assumption.
    + eapply clock_sound_step; [exact L | exact Q | apply IH].
Qed.

Lemma min_loop_sound (game : B) (moves : list Move) :
  forall u m a b n,
    clock_sound (expired self time_left) n
      (min_loop child game moves u m a b n).
Proof.
  induction moves as [| move rest IH]; intros u m a b n.
  - simpl. split; [lia | apply quiet_refl].
  - simpl. unfold bind.
    pose proof (child_sound (forecast_move game move) a b n) as S.
    destruct (child (forecast_move game move) a b n) as [[c |] n1];
      [| exact S].
    destruct S as [L Q].
    destruct (use_alpha_beta_pruning a b);
      [destruct a as [a |], b as [b |] |];
      try (eapply clock_sound_step; [exact L | exact Q | apply IH]).
    destruct (le_value _ a).
    + split; assumption.
    + eapply clock_sound_step; [exact L | exact Q | apply IH].
Qed.

End SoundLoops.

Lemma check_then_sound {A : Type} (k : Clocked A) (n : nat) :
  clock_sound (expired self time_left) (S n) (k (S n)) ->
  clock_sound (expired self time_left) n
    ((check_timeout self time_left ;;; k) n) /\
  n < snd ((check_timeout self time_left ;;; k) n).
Proof.
  intros K. rewrite check_timeout_bind.
  destruct (expired self time_left n) eqn:E.
  - simpl. auto.
  - assert (Q : quiet (expired self time_left) n (S n)).
    { intros i Hi. replace i with n by lia. exact E. }
    split.
    + eapply clock_sound_step; [| exact Q | exact K]. lia.
    + destruct (k (S n)) as [[r |] n']; simpl in *; lia.
Qed.

Lemma search_sound (depth : nat) :
  (forall game a b n,
     clock_sound (expired self time_left) n
       (max_value self time_left depth game a b n) /\
     n < snd (max_value self time_left depth game a b n)) /\
  (forall game a b n,
     clock_sound (expired self time_left) n
       (min_value self time_left depth game a b n) /\
     n < snd (min_value self time_left depth game a b n)).
Proof.
  induction depth as [| d [IHmax IHmin]]; split; intros game a b n.
  - rewrite max_value_eq. apply check_then_sound.
    simpl. split; [lia | apply quiet_refl].
  - rewrite min_value_eq. apply check_then_sound.
    simpl. split; [lia | apply quiet_refl].
  - rewrite max_value_eq. apply check_then_sound.
    apply max_loop_sound. intros. apply IHmin.
  - rewrite min_value_eq. apply check_then_sound.
    apply min_loop_sound. intros. apply IHmax.
Qed.

Lemma search_method_sound (game : B) (depth n : nat) :
  clock_sound (expired self time_left) n
    (search_method self time_left game depth n) /\
  n < snd (search_method self time_left game depth n).
Proof.
  unfold search_method, minimax, alphabeta.
  destruct (String.eqb (method self) "minimax"); apply (search_sound depth).
Qed.

(** With time for every reading, a search returns its clock-free result. *)
Lemma max_value_in_time depth game a b n :
  (forall i, n <= i -> expired self time_left i = false) ->
  fst (max_value self time_left depth game a b n)
  = Returned (max_result self depth game a b).
Proof.
  intros Q.
  destruct (proj1 (search_sound depth) game a b n) as [S L].
  destruct (max_value self time_left depth game a b n) as [[r |] n'] eqn:E.
  - apply max_value_returned in E. subst r. reflexivity.
  - simpl in *. destruct S as [_ X]. rewrite Q in X by lia. discriminate.
Qed.

Lemma min_value_in_time depth game a b n :
  (forall i, n <= i -> expired self time_left i = false) ->
  fst (min_value self time_left depth game a b n)
  = Returned (min_result self depth game a b).
Proof.
  intros Q.
  destruct (proj2 (search_sound depth) game a b n) as [S L].
  destruct (min_value self time_left depth game a b n) as [[r |] n'] eqn:E.
  - apply min_value_returned in E. subst r. reflexivity.
  - simpl in *. destruct S as [_ X]. rewrite Q in X by lia. discriminate.
Qed.

End ClockFacts.

(** ** The properties of the search core *)

Section SearchClaims.

Context {B P : Type} `{Board B P}.
Variable self : GamePlayer B P.

Lemma max_scan_move child game moves :
  forall u m a b,
    snd (max_scan child game moves u m a b) = m \/
    In (snd (max_scan child game moves u m a b)) moves.
Proof.
  induction moves as [| move rest IH]; intros u m a b; simpl; auto.
  set (c := fst (child (forecast_move game move) a b)).
  assert (S : forall x,
             (x = snd (if lt_value u c then (c, move) else (u, m)) \/ In x rest) ->
             x = m \/ move = x \/ In x rest).
  { intros x [-> | I]; auto. destruct (lt_value u c); simpl; auto. }
  destruct (use_alpha_beta_pruning a b);
    [destruct a as [a |], b as [b |] |];
    try (apply S; edestruct IH as [-> | I]; eauto).
  destruct (ge_value _ b).
  - apply S. simpl. auto.
  - apply S; edestruct IH as [-> | I]; eauto.
Qed.

Lemma min_scan_move child game moves :
  forall u m a b,
    snd (min_scan child game moves u m a b) = m \/
    In (snd (min_scan child game moves u m a b)) moves.
Proof.
  induction moves as [| move rest IH]; intros u m a b; simpl; auto.
  set (c := fst (child (forecast_move game move) a b)).
  assert (S : forall x,
             (x = snd (if gt_value u c then (c, move) else (u, m)) \/ In x rest) ->
             x = m \/ move = x \/ In x rest).
  { intros x [-> | I]; auto. destruct (gt_value u c); simpl; auto. }
  destruct (use_alpha_beta_pruning a b);
    [destruct a as [a |], b as [b |] |];
    try (apply S; edestruct IH as [-> | I]; eauto).
  destruct (le_value _ a).
  - apply S. simpl. auto.
  - apply S; edestruct IH as [-> | I]; eauto.
Qed.

Lemma max_result_move depth game a b :
  legal_or_sentinel (get_legal_moves game (player_id self))
    (snd (max_result self depth game a b)).
Proof.
  destruct depth as [| d]; [left; reflexivity |].
  apply max_scan_move.
Qed.

Lemma min_result_move depth game a b :
  legal_or_sentinel
    (get_legal_moves game (get_opponent game (player_id self)))
    (snd (min_result self depth game a b)).
Proof.
  destruct depth as [| d]; [left; reflexivity |].
  apply min_scan_move.
Qed.

(** Whatever the method, the search [get_move] starts returns the result
    of plain minimax at a maximizing root. *)
Lemma search_method_returned time_left game depth n r n' :
  search_method self time_left game depth n = (Returned r, n') ->
  r = max_result self depth game None None.
Proof.
  unfold search_method, minimax, alphabeta.
  destruct (String.eqb (method self) "minimax"); intros R;
    apply max_value_returned in R; subst r; trivial.
  apply max_result_full_window.
Qed.

(** The exhaustive maximizing scan keeps the first move that reaches the
    largest child value, when that value beats the initial one. *)
Lemma max_scan_first child game moves :
  forall (u0 : SearchValue) (m0 : Move),
    let cv := fun x => fst (child (forecast_move game x) None None) in
    let r := max_scan child game moves u0 m0 None None in
    (forall x, In x moves -> ValueOrder.le (cv x) (fst r)) /\
    ((r = (u0, m0)) \/
     (ValueOrder.lt u0 (fst r) /\
      exists l1 l2, moves = l1 ++ snd r :: l2 /\ cv (snd r) = fst r /\
                    forall x, In x l1 -> ValueOrder.lt (cv x) (fst r))).
Proof.
  induction moves as [| move rest IH]; intros u0 m0; simpl.
  - split; [tauto | auto].
  - set (c := fst (child (forecast_move game move) None None)).
    pose proof (max_scan_grows child game rest) as G.
    destruct (lt_value u0 c) eqn:E; simpl.
    + specialize (IH c move). specialize (G c move None None).
      simpl in IH. destruct IH as [U D].
      set (r := max_scan child game rest c move None None) in *.
      split.
      * intros x [<- | I]; [exact G | auto].
      * right. split; [value_order |].
        destruct D as [-> | (L & l1 & l2 & E1 & E2 & E3)].
        -- exists [], rest. simpl. repeat split; tauto.
        -- exists (move :: l1), l2. simpl. rewrite <- E1.
           repeat split; trivial.
           intros x [<- | I]; [exact L | auto].
    + specialize (IH u0 m0). specialize (G u0 m0 None None).
      simpl in IH. destruct IH as [U D].
      set (r := max_scan child game rest u0 m0 None None) in *.
      split.
      * intros x [<- | I]; [fold c; value_order | auto].
      * destruct D as [-> | (L & l1 & l2 & E1 & E2 & E3)]; [auto |].
        right. split; trivial.
        exists (move :: l1), l2. simpl. rewrite <- E1.
        repeat split; trivial.
        intros x [<- | I]; [fold c; value_order | auto].
Qed.

End SearchClaims.

(** ** Claims on the search core *)

(** C1. Alpha-beta started with the bounds (-infinity, +infinity) and plain
    minimax return the same (value, move) pair on every position and depth,
    at a maximizing and at a minimizing root, whenever neither run is
    cancelled.  The two runs may see different clocks. *)
Theorem alphabeta_agrees_with_minimax
    {B P : Type} `{Board B P} (self : GamePlayer B P)
    (clock1 clock2 : nat -> Qc) (game : B) (depth : nat)
    (maximizing_player : bool) (n1 n2 n1' n2' : nat)
    (r1 r2 : SearchValue * Move) :
  alphabeta self clock1 game depth NegInf PosInf maximizing_player n1
    = (Returned r1, n1') ->
  minimax self clock2 game depth maximizing_player n2 = (Returned r2, n2') ->
  r1 = r2.
Proof.
  unfold alphabeta, minimax. destruct maximizing_player; intros R1 R2.
  - apply max_value_returned in R1, R2. subst.
    apply max_result_full_window.
  - apply min_value_returned in R1, R2. subst.
    apply min_result_full_window.
Qed.

Lemma alphabeta_agrees_with_minimax_witness :
  alphabeta (player "alphabeta" false 2) plenty two_ply 2 NegInf PosInf true 0
    = (Returned (num 3, move_A), 8) /\
  minimax (player "alphabeta" false 2) (low_from 10) two_ply 2 true 0
    = (Returned (num 3, move_A), 10) /\
  (num 3, move_A) = (num 3, move_A).
Proof.
  assert (R1 : alphabeta (player "alphabeta" false 2) plenty two_ply 2
                 NegInf PosInf true 0 = (Returned (num 3, move_A), 8))
    by (vm_compute; reflexivity).
  assert (R2 : minimax (player "alphabeta" false 2) (low_from 10) two_ply 2
                 true 0 = (Returned (num 3, move_A), 10))
    by (vm_compute; reflexivity).
  split; [exact R1 | split; [exact R2 |]].
  exact (alphabeta_agrees_with_minimax _ _ _ _ _ _ _ _ R1 R2).
Defined.

(** C7. At depth 0, [max_value] and [min_value] read the clock once and,
    unless that reading cancels the search, return the pair
    (score(position, player), (-1, -1)) without expanding the position:
    the legal moves and the terminal status of the position play no part. *)
Theorem depth_zero_returns_score
    {B P : Type} `{Board B P} (self : GamePlayer B P) (time_left : nat -> Qc)
    (game : B) (alpha beta : option SearchValue) (n : nat) :
  max_value self time_left 0 game alpha beta n =
    (if expired self time_left n then (Raised, S n)
     else (Returned (score self game (player_id self), NO_MOVE), S n)) /\
  min_value self time_left 0 game alpha beta n =
    (if expired self time_left n then (Raised, S n)
     else (Returned (score self game (player_id self), NO_MOVE), S n)).
Proof.
  rewrite max_value_eq, min_value_eq, !check_timeout_bind. split; reflexivity.
Qed.

(** C4, as the code has it.  At an interior node (depth > 0) whose side to
    move has no legal moves, a search that is not cancelled on entry returns
    the sentinel move with the initial extreme value: minus infinity at a
    maximizing node, plus infinity at a minimizing node.  The scoring
    function is not called. *)
Theorem no_moves_returns_extreme
    {B P : Type} `{Board B P} (self : GamePlayer B P) (time_left : nat -> Qc)
    (game : B) (depth' : nat) (alpha beta : option SearchValue) (n : nat) :
  expired self time_left n = false ->
  (get_legal_moves game (player_id self) = [] ->
   max_value self time_left (S depth') game alpha beta n
     = (Returned (NegInf, NO_MOVE), S n)) /\
  (get_legal_moves game (get_opponent game (player_id self)) = [] ->
   min_value self time_left (S depth') game alpha beta n
     = (Returned (PosInf, NO_MOVE), S n)).
Proof.
  intros E. rewrite max_value_eq, min_value_eq, !check_timeout_bind, E.
  split; intros ->; reflexivity.
Qed.

Lemma no_moves_returns_extreme_witness :
  max_value (player "minimax" false 1) plenty 1 stuck None None 0
    = (Returned (NegInf, NO_MOVE), 1) /\
  min_value (player "minimax" false 1) plenty 1 stuck None None 0
    = (Returned (PosInf, NO_MOVE), 1).
Proof.
  assert (E : expired (player "minimax" false 1) plenty 0 = false)
    by (vm_compute; reflexivity).
  destruct (no_moves_returns_extreme (player "minimax" false 1) plenty
              stuck 0 None None 0 E) as [Hmax Hmin].
  split; [apply Hmax | apply Hmin]; reflexivity.
Defined.

(** C4 as stated fails: [stuck] has no legal moves and the evaluator scores
    it 0, yet the depth-1 search does not return that score. *)
Lemma no_moves_score_counterexample :
  get_legal_moves stuck (player_id (player "minimax" false 1)) = [] /\
  score (player "minimax" false 1) stuck true = num 0 /\
  ~ (exists n',
       max_value (player "minimax" false 1) plenty 1 stuck None None 0
       = (Returned (score (player "minimax" false 1) stuck
                      (player_id (player "minimax" false 1)), NO_MOVE), n')).
Proof.
  split; [reflexivity | split; [reflexivity |]].
  intros [n' R]. vm_compute in R. discriminate R.
Qed.

(** C9. On a board that never calls a player both loser and winner of one
    position, the default scoring function returns minus infinity exactly
    when the player is a loser, plus infinity exactly when the player is a
    winner, and otherwise the finite value
    1 * (number of the player's legal moves)
    - 1.5 * (number of the opponent's legal moves). *)
Theorem custom_score_contract
    {B P : Type} `{Board B P} (game : B) (player : P) :
  (is_loser game player = true -> is_winner game player = false) ->
  (custom_score game player = NegInf <-> is_loser game player = true) /\
  (custom_score game player = PosInf <-> is_winner game player = true) /\
  (is_loser game player = false -> is_winner game player = false ->
   custom_score game player =
   Fin (Q2Qc (1 # 1)
        * Q2Qc (inject_Z (Z.of_nat (List.length (get_legal_moves game player))))
        - Q2Qc (3 # 2)
          * Q2Qc (inject_Z
                    (Z.of_nat
                       (List.length
                          (get_legal_moves game (get_opponent game player))))))%Qc).
Proof.
  intros X. unfold custom_score, custom_score_weight, len.
  destruct (is_loser game player) eqn:L.
  - rewrite (X eq_refl). repeat split; intros; congruence.
  - destruct (is_winner game player) eqn:W;
      repeat split; intros; congruence.
Qed.

Lemma custom_score_contract_witness :
  custom_score three_to_one true = Fin (Q2Qc (3 # 2)) /\
  custom_score three_to_one false = Fin (Q2Qc ((-7) # 2)).
Proof.
  assert (X : forall p, is_loser three_to_one p = true ->
                        is_winner three_to_one p = false)
    by (intros [|]; discriminate).
  split.
  - rewrite (proj2 (proj2 (@custom_score_contract _ _ _ three_to_one true
                             (X true))) eq_refl eq_refl).
    reflexivity.
  - rewrite (proj2 (proj2 (@custom_score_contract _ _ _ three_to_one false
                             (X false))) eq_refl eq_refl).
    reflexivity.
Defined.

(** ** The deepening loop and [get_move] *)

Section GetMoveFacts.

Context {B P : Type} `{Board B P}.
Variable self : GamePlayer B P.
Variable time_left : nat -> Qc.

(** The loop is only left through [Timeout]. *)
Lemma while_true_raised (fuel : nat) (game : B) :
  forall d move n mv o n',
    while_true self time_left fuel game d move n = Some (mv, o, n') ->
    o = Raised /\ n < n' /\ expired self time_left (pred n') = true.
Proof.
  induction fuel as [| fuel IH]; intros d move n mv o n' W; [discriminate |].
  simpl in W.
  destruct (search_method_sound self time_left game d n) as [S L].
  destruct (search_method self time_left game d n) as [[r |] n1].
  - apply IH in W. simpl in L. intuition lia.
  - inversion W; subst. simpl in S. intuition.
Qed.

(** After [k] completed passes the loop goes on at the depth
    [first_depth + k]. *)
Lemma while_true_passes (game : B) (k : nat) :
  forall fuel d move n m1 n1,
    completed_passes self time_left k game d move n = Some (m1, n1) ->
    while_true self time_left (k + fuel) game d move n
    = while_true self time_left fuel game (d + k) m1 n1.
Proof.
  induction k as [| k IH]; intros fuel d move n m1 n1 C.
  - simpl in C. inversion C; subst. rewrite Nat.add_0_r. reflexivity.
  - simpl in C.
    destruct (completed_passes self time_left k game d move n)
      as [[m' n'] |] eqn:E; [| discriminate].
    destruct (search_method self time_left game (d + k) n')
      as [[r |] n2] eqn:R; [| discriminate].
    inversion C; subst.
    replace (S k + fuel) with (k + S fuel) by lia.
    rewrite (IH (S fuel) d move n m' n' E).
    simpl. rewrite R. rewrite Nat.add_succ_r. reflexivity.
Qed.

(** The loop is left as soon as a reading finds the budget used up. *)
Lemma while_true_stops (game : B) (k : nat) (fuel : nat) :
  forall d move n,
    n <= k -> expired self time_left k = true -> k - n < fuel ->
    while_true self time_left fuel game d move n <> None.
Proof.
  induction fuel as [| fuel IH]; intros d move n L E F; [lia |].
  simpl.
  destruct (search_method_sound self time_left game d n) as [S L1].
  destruct (search_method self time_left game d n) as [[r |] n1];
    [| discriminate].
  simpl in S, L1. destruct S as [_ Q].
  assert (n1 <= k).
  { destruct (Nat.le_gt_cases n1 k); trivial.
    rewrite Q in E by lia. discriminate. }
  apply IH; trivial. lia.
Qed.

(** With a clock that never runs low the loop is never left. *)
Lemma while_true_forever (game : B) (fuel : nat) :
  (forall i, expired self time_left i = false) ->
  forall d move n, while_true self time_left fuel game d move n = None.
Proof.
  intros Q. induction fuel as [| fuel IH]; intros d move n; trivial.
  simpl.
  destruct (search_method_sound self time_left game d n) as [S _].
  destruct (search_method self time_left game d n) as [[r |] n1].
  - apply IH.
  - simpl in S. destruct S as [_ E]. rewrite Q in E. discriminate.
Qed.

(** The loop records moves of the root only. *)
Lemma while_true_move (game : B) (fuel : nat) :
  forall d move n mv o n',
    legal_or_sentinel (get_legal_moves game (player_id self)) move ->
    while_true self time_left fuel game d move n = Some (mv, o, n') ->
    legal_or_sentinel (get_legal_moves game (player_id self)) mv.
Proof.
  induction fuel as [| fuel IH]; intros d move n mv o n' L W; [discriminate |].
  simpl in W.
  destruct (search_method self time_left game d n) as [[r |] n1] eqn:R.
  - apply IH in W; trivial.
    apply search_method_returned in R. subst r. apply max_result_move.
  - inversion W; subst. exact L.
Qed.

Lemma get_move_fixed_depth (fuel : nat) (game : B) (legal_moves : list Move)
    (n : nat) :
  iterative self = false ->
  get_move self time_left fuel game legal_moves n =
  Some (Returned
          match fst (search_method self time_left game (search_depth self) n)
          with
          | Returned r => snd r
          | Raised => NO_MOVE
          end,
        snd (search_method self time_left game (search_depth self) n)).
Proof.
  intros I. unfold get_move, try_block. rewrite I.
  destruct (search_method self time_left game (search_depth self) n)
    as [[r |] n1]; reflexivity.
Qed.

Lemma get_move_iterative (fuel : nat) (game : B) (legal_moves : list Move)
    (n : nat) :
  iterative self = true ->
  get_move self time_left fuel game legal_moves n =
  match while_true self time_left fuel game 1 NO_MOVE n with
  | Some (move, _, n') => Some (Returned move, n')
  | None => None
  end.
Proof.
  intros I. unfold get_move, try_block. rewrite I.
  destruct (while_true self time_left fuel game 1 NO_MOVE n)
    as [[[move [[] |]] n'] |]; reflexivity.
Qed.

Lemma get_move_never_raises (fuel : nat) (game : B)
    (legal_moves : list Move) (n n' : nat) :
  get_move self time_left fuel game legal_moves n <> Some (Raised, n').
Proof.
  unfold get_move.
  destruct (try_block self time_left fuel game n)
    as [[[move [[] |]] n1] |]; discriminate.
Qed.

End GetMoveFacts.

(** ** Searching without bounds *)

Section PlainFacts.

Context {B P : Type} `{Board B P}.
Variable self : GamePlayer B P.
Variable time_left : nat -> Qc.

Lemma max_loop_no_bounds child (game : B) (moves : list Move) :
  forall u m n,
    max_loop child game moves u m None None n =
    explore_all lt_value (fun g => child g None None) game moves (u, m) n.
Proof.
  induction moves as [| move rest IH]; intros u m n; simpl; trivial.
  unfold bind.
  destruct (child (forecast_move game move) None None n) as [[r |] n1];
    trivial.
  rewrite IH. destruct (lt_value u (fst r)); reflexivity.
Qed.

Lemma min_loop_no_bounds child (game : B) (moves : list Move) :
  forall u m n,
    min_loop child game moves u m None None n =
    explore_all gt_value (fun g => child g None None) game moves (u, m) n.
Proof.
  induction moves as [| move rest IH]; intros u m n; simpl; trivial.
  unfold bind.
  destruct (child (forecast_move game move) None None n) as [[r |] n1];
    trivial.
  rewrite IH. destruct (gt_value u (fst r)); reflexivity.
Qed.

Lemma explore_all_ext better (c1 c2 : B -> Clocked (SearchValue * Move))
    (game : B) (moves : list Move) :
  (forall g n, c1 g n = c2 g n) ->
  forall best n,
    explore_all better c1 game moves best n
    = explore_all better c2 game moves best n.
Proof.
  intros E. induction moves as [| move rest IH]; intros best n; simpl; trivial.
  unfold bind. rewrite E.
  destruct (c2 (forecast_move game move) n) as [[r |] n1]; trivial.
Qed.

Lemma explore_all_visits better (child : B -> Clocked (SearchValue * Move))
    (size : B -> nat) (game : B) (moves : list Move) :
  (forall g n, visits n (size g) (child g n)) ->
  forall best n,
    visits n (list_sum (map (fun move => size (forecast_move game move)) moves))
      (explore_all better child game moves best n).
Proof.
  intros V. induction moves as [| move rest IH]; intros best n; simpl.
  - lia.
  - unfold bind. specialize (V (forecast_move game move) n).
    destruct (child (forecast_move game move) n) as [[r |] n1]; simpl in V.
    + match goal with
      | |- visits _ _ (explore_all _ _ _ _ ?b _) => specialize (IH b n1)
      end.
      destruct (explore_all better child game rest _ n1) as [[r' |] n2];
        simpl in *; lia.
    + simpl. lia.
Qed.

Lemma plain_max_eq (depth : nat) (game : B) :
  plain_max self time_left depth game =
  (check_timeout self time_left ;;;
   match depth with
   | O => ret (score self game (player_id self), NO_MOVE)
   | S depth' =>
       explore_all lt_value (plain_min self time_left depth') game
         (get_legal_moves game (player_id self)) (NegInf, NO_MOVE)
   end).
Proof. destruct depth; reflexivity. Qed.

Lemma plain_min_eq (depth : nat) (game : B) :
  plain_min self time_left depth game =
  (check_timeout self time_left ;;;
   match depth with
   | O => ret (score self game (player_id self), NO_MOVE)
   | S depth' =>
       explore_all gt_value (plain_max self time_left depth') game
         (get_legal_moves game (get_opponent game (player_id self)))
         (PosInf, NO_MOVE)
   end).
Proof. destruct depth; reflexivity. Qed.

Lemma no_bounds_is_plain (depth : nat) :
  (forall game n,
     max_value self time_left depth game None None n
     = plain_max self time_left depth game n) /\
  (forall game n,
     min_value self time_left depth game None None n
     = plain_min self time_left depth game n).
Proof.
  induction depth as [| d [IHmax IHmin]]; split; intros game n.
  - rewrite max_value_eq, plain_max_eq. reflexivity.
  - rewrite min_value_eq, plain_min_eq. reflexivity.
  - rewrite max_value_eq, plain_max_eq, !check_timeout_bind.
    destruct (expired self time_left n); trivial.
    rewrite max_loop_no_bounds. apply explore_all_ext. apply IHmin.
  - rewrite min_value_eq, plain_min_eq, !check_timeout_bind.
    destruct (expired self time_left n); trivial.
    rewrite min_loop_no_bounds. apply explore_all_ext. apply IHmax.
Qed.

Lemma check_then_visits {A : Type} (k : Clocked A) (nodes n : nat) :
  visits (S n) nodes (k (S n)) ->
  visits n (S nodes) ((check_timeout self time_left ;;; k) n).
Proof.
  rewrite check_timeout_bind.
  destruct (expired self time_left n); simpl; [lia |].
  destruct (k (S n)) as [[r |] n']; simpl; lia.
Qed.

Lemma plain_visits (depth : nat) :
  (forall game n,
     visits n (max_nodes self depth game) (plain_max self time_left depth game n)) /\
  (forall game n,
     visits n (min_nodes self depth game) (plain_min self time_left depth game n)).
Proof.
  induction depth as [| d [IHmax IHmin]]; split; intros game n.
  - rewrite plain_max_eq. apply (check_then_visits _ 0). simpl. lia.
  - rewrite plain_min_eq. apply (check_then_visits _ 0). simpl. lia.
  - rewrite plain_max_eq. simpl max_nodes. apply check_then_visits.
    apply explore_all_visits with (size := min_nodes self d). apply IHmin.
  - rewrite plain_min_eq. simpl min_nodes. apply check_then_visits.
    apply explore_all_visits with (size := max_nodes self d). apply IHmax.
Qed.

End PlainFacts.

(** C6. A search started by [minimax] runs without bounds throughout: the
    pruning guard is false on absent bounds; with absent bounds either loop
    is the exhaustive scan, which hands absent bounds to every recursive
    call and has no early exit; so [minimax] is the plain traversal, and a
    run that is not cancelled makes one call per node of the whole tree cut
    at the search depth. *)
Theorem minimax_never_prunes
    {B P : Type} `{Board B P} (self : GamePlayer B P) (time_left : nat -> Qc) :
  use_alpha_beta_pruning None None = false /\
  (forall child game moves u m n,
     max_loop child game moves u m None None n =
     explore_all lt_value (fun g => child g None None) game moves (u, m) n) /\
  (forall child game moves u m n,
     min_loop child game moves u m None None n =
     explore_all gt_value (fun g => child g None None) game moves (u, m) n) /\
  (forall game depth maximizing_player n,
     minimax self time_left game depth maximizing_player n =
     if maximizing_player then plain_max self time_left depth game n
     else plain_min self time_left depth game n) /\
  (forall game depth maximizing_player n,
     visits n (tree_nodes self depth game maximizing_player)
       (minimax self time_left game depth maximizing_player n)).
Proof.
  split; [reflexivity |].
  split; [intros; apply max_loop_no_bounds |].
  split; [intros; apply min_loop_no_bounds |].
  assert (E : forall game depth maximizing_player n,
     minimax self time_left game depth maximizing_player n =
     if maximizing_player then plain_max self time_left depth game n
     else plain_min self time_left depth game n).
  { intros game depth [|] n; unfold minimax;
      apply (no_bounds_is_plain self time_left depth). }
  split; [exact E |].
  intros game depth mp n. rewrite E. unfold tree_nodes.
  destruct mp; apply (plain_visits self time_left depth).
Qed.

(** ** When a maximizing node returns its first maximum *)

Section FirstMaximum.

Context {B P : Type} `{Board B P}.
Variable self : GamePlayer B P.

Lemma max_scan_fold child (game : B) (moves : list Move) :
  forall (u : SearchValue) (m : Move),
    fst (max_scan child game moves u m None None) =
    fold_left py_max
      (map (fun x => fst (child (forecast_move game x) None None)) moves) u.
Proof.
  induction moves as [| move rest IH]; intros u m; simpl; trivial.
  rewrite IH. unfold py_max, gt_value.
  destruct (lt_value u _); reflexivity.
Qed.

(** A scan hands back its initial pair or a strictly greater value. *)
Lemma max_scan_strict child (game : B) (moves : list Move) :
  forall (u : SearchValue) (m : Move) (a b : option SearchValue),
    max_scan child game moves u m a b = (u, m) \/
    ValueOrder.lt u (fst (max_scan child game moves u m a b)).
Proof.
  induction moves as [| move rest IH]; intros u m a b; simpl; auto.
  set (c := fst (child (forecast_move game move) a b)).
  pose proof (max_scan_grows child game rest) as G.
  destruct (lt_value u c) eqn:E; simpl.
  - right.
    destruct (use_alpha_beta_pruning a b);
      [destruct a as [a |], b as [b |] |];
      try (match goal with
           | |- ValueOrder.lt _ (fst (max_scan _ _ _ ?u' ?m' ?a' ?b')) =>
               specialize (G u' m' a' b'); value_order
           end).
    destruct (ge_value c b); simpl; [value_order |].
    match goal with
    | |- ValueOrder.lt _ (fst (max_scan _ _ _ ?u' ?m' ?a' ?b')) =>
        specialize (G u' m' a' b'); value_order
    end.
  - destruct (use_alpha_beta_pruning a b);
      [destruct a as [a |], b as [b |] |]; try apply IH.
    destruct (ge_value u b); [auto | apply IH].
Qed.

(** Without both bounds the scans and the results are those of the search
    without any bound. *)
Lemma max_scan_unpruned child (game : B) (moves : list Move)
    (a b : option SearchValue) :
  use_alpha_beta_pruning a b = false ->
  (forall g, child g a b = child g None None) ->
  forall u m,
    max_scan child game moves u m a b = max_scan child game moves u m None None.
Proof.
  intros U C. induction moves as [| move rest IH]; intros u m; simpl; trivial.
  rewrite U, C. apply IH.
Qed.

Lemma min_scan_unpruned child (game : B) (moves : list Move)
    (a b : option SearchValue) :
  use_alpha_beta_pruning a b = false ->
  (forall g, child g a b = child g None None) ->
  forall u m,
    min_scan child game moves u m a b = min_scan child game moves u m None None.
Proof.
  intros U C. induction moves as [| move rest IH]; intros u m; simpl; trivial.
  rewrite U, C. apply IH.
Qed.

Lemma result_unpruned (a b : option SearchValue) (depth : nat) :
  use_alpha_beta_pruning a b = false ->
  (forall g, max_result self depth g a b = max_result self depth g None None) /\
  (forall g, min_result self depth g a b = min_result self depth g None None).
Proof.
  intros U. induction depth as [| d [IHmax IHmin]]; split; intros g; trivial.
  - simpl. apply max_scan_unpruned; assumption.
  - simpl. apply min_scan_unpruned; assumption.
Qed.

Section Agreement.

Variable child : B -> option SearchValue -> option SearchValue
                 -> SearchValue * Move.
Variable game : B.
Hypothesis child_within : forall (g : B) (a b : SearchValue),
  ValueOrder.lt a b ->
  within a b (fst (child g None None)) (fst (child g (Some a) (Some b))).

(** When the exhaustive value lies above alpha, and below beta unless beta
    is plus infinity, the pruned scan returns the very pair of the
    exhaustive scan. *)
Lemma max_scan_agrees (moves : list Move) :
  forall (u : SearchValue) (m : Move) (um : SearchValue) (mm : Move)
         (a b : SearchValue),
    ValueOrder.le u a -> ValueOrder.le um a -> ValueOrder.lt a b ->
    ValueOrder.lt a (fst (max_scan child game moves um mm None None)) ->
    ValueOrder.lt (fst (max_scan child game moves um mm None None)) b \/
    b = PosInf ->
    max_scan child game moves u m (Some a) (Some b)
    = max_scan child game moves um mm None None.
Proof.
  induction moves as [| move rest IH]; intros u m um mm a b Hu Hum Hab Hav Hvb.
  - simpl in Hav. exfalso. value_order.
  - simpl in *.
    pose proof (child_within (forecast_move game move) Hab) as (C1 & C2 & C3).
    set (vc := fst (child (forecast_move game move) None None)) in *.
    set (rc := fst (child (forecast_move game move) (Some a) (Some b))) in *.
    destruct (lt_value a vc) eqn:E1; [destruct (lt_value vc b) eqn:E2 |].
    + (* the child lies inside the window: both scans record it *)
      assert (rc = vc) as -> by (apply C3; value_order).
      replace (lt_value u vc) with true by (symmetry; value_order).
      replace (lt_value um vc) with true in * by (symmetry; value_order).
      simpl in *.
      replace (ge_value vc b) with false by (symmetry; value_order).
      destruct (py_max_cases a vc) as [[_ ->] | [F _]];
        [| exfalso; value_order].
      destruct (lt_value vc (fst (max_scan child game rest vc move None None)))
        eqn:E3.
      * apply IH; trivial; value_order.
      * assert (W : within vc b
                      (fst (max_scan child game rest vc move None None))
                      (fst (max_scan child game rest vc move
                              (Some vc) (Some b))))
          by (apply max_scan_within; trivial; value_order).
        destruct W as (W1 & _ & _).
        assert (L : ValueOrder.le
                      (fst (max_scan child game rest vc move (Some vc) (Some b)))
                      vc) by (apply W1; value_order).
        destruct (max_scan_strict child game rest vc move (Some vc) (Some b))
          as [-> | S1]; [| exfalso; value_order].
        destruct (max_scan_strict child game rest vc move None None)
          as [-> | S2]; [reflexivity | exfalso; value_order].
    + (* the child reaches beta: only possible when beta is plus infinity *)
      pose proof (max_scan_grows child game rest) as G.
      replace (lt_value um vc) with true in * by (symmetry; value_order).
      simpl in *. specialize (G vc move None None).
      destruct Hvb as [Hvb | ->]; [exfalso; value_order |].
      assert (ValueOrder.le PosInf rc) by (apply C2; value_order).
      pose proof (PosInf_greatest rc). pose proof (PosInf_greatest vc).
      assert (vc = PosInf) as -> by value_order.
      assert (rc = PosInf) as -> by value_order.
      replace (lt_value u PosInf) with true by (symmetry; value_order).
      simpl. rewrite max_scan_PosInf. reflexivity.
    + (* the child lies below alpha: neither scan gets above alpha *)
      assert (ValueOrder.le rc a) by (apply C1; value_order).
      set (best := if lt_value u rc then _ else _).
      set (mbest := if lt_value um vc then _ else _) in *.
      assert (ValueOrder.le (fst best) a)
        by (unfold best; destruct (lt_value u rc); simpl; value_order).
      assert (ValueOrder.le (fst mbest) a)
        by (unfold mbest; destruct (lt_value um vc); simpl; value_order).
      replace (ge_value (fst best) b) with false by (symmetry; value_order).
      destruct (py_max_cases a (fst best)) as [[F _] | [_ ->]];
        [exfalso; value_order |].
      apply IH; assumption.
Qed.

End Agreement.

(** The conditions under which no cutoff comes before the maximum: the
    pair returned with the bounds [a], [b] is the pair of plain minimax. *)
Lemma max_result_no_cutoff (depth' : nat) (game : B)
    (a b : option SearchValue) :
  a = None \/ b = None \/
  (exists x y,
     a = Some x /\ b = Some y /\
     ValueOrder.lt x (fst (max_result self (S depth') game None None)) /\
     (ValueOrder.lt (fst (max_result self (S depth') game None None)) y \/
      y = PosInf)) ->
  max_result self (S depth') game a b
  = max_result self (S depth') game None None.
Proof.
  intros [-> | [-> | (x & y & -> & -> & Lx & Ly)]].
  - apply (result_unpruned None b (S depth')). reflexivity.
  - apply (result_unpruned a None (S depth')). destruct a; reflexivity.
  - simpl in *. apply max_scan_agrees; trivial; try apply NegInf_least.
    + intros g a b. apply (result_within self depth').
    + pose proof (PosInf_greatest
                    (fst (max_scan (min_result self depth') game
                            (get_legal_moves game (player_id self))
                            NegInf NO_MOVE None None))).
      destruct Ly as [Ly | ->]; [value_order |].
      destruct x; try reflexivity. exfalso. value_order.
Qed.

End FirstMaximum.

(** ** Claims on the moves *)

(** C5, as the code has it.  A maximizing node replaces its best pair only
    on a strictly greater child value.  So at a maximizing node of depth
    > 0 whose search is not cancelled, when the largest of the children's
    minimax values is above minus infinity and no cutoff can come before it
    (alpha or beta is absent, or that value lies above alpha and either
    below beta or beta is plus infinity; this covers every root searched by
    minimax or by alpha-beta from the full window), the node returns that
    value with the first move, in enumeration order, whose child reaches
    it.  On the one-ply position scored A: 5, B: 5, C: 9 the move is C, and
    when A and B tie at the maximum the move is A, the first met. *)
Theorem first_maximum_is_kept
    {B P : Type} `{Board B P} (self : GamePlayer B P) (time_left : nat -> Qc)
    (game : B) (depth' : nat) (a b : option SearchValue) (n n' : nat)
    (u : SearchValue) (m : Move) :
  max_value self time_left (S depth') game a b n = (Returned (u, m), n') ->
  ValueOrder.lt NegInf
    (fold_left py_max
       (map (max_child_value self depth' game)
            (get_legal_moves game (player_id self))) NegInf) ->
  (a = None \/ b = None \/
   exists x y,
     a = Some x /\ b = Some y /\
     ValueOrder.lt x
       (fold_left py_max
          (map (max_child_value self depth' game)
               (get_legal_moves game (player_id self))) NegInf) /\
     (ValueOrder.lt
        (fold_left py_max
           (map (max_child_value self depth' game)
                (get_legal_moves game (player_id self))) NegInf) y \/
      y = PosInf)) ->
  u = fold_left py_max
        (map (max_child_value self depth' game)
             (get_legal_moves game (player_id self))) NegInf /\
  (forall x, In x (get_legal_moves game (player_id self)) ->
             ValueOrder.le (max_child_value self depth' game x) u) /\
  (exists l1 l2,
     get_legal_moves game (player_id self) = l1 ++ m :: l2 /\
     max_child_value self depth' game m = u /\
     forall x, In x l1 -> ValueOrder.lt (max_child_value self depth' game x) u) /\
  (forall method,
     get_move (player method false 1) plenty 0 one_ply
       (get_legal_moves one_ply true) 0 = Some (Returned move_C, 4) /\
     get_move (player method false 1) plenty 0 tie_ply
       (get_legal_moves tie_ply true) 0 = Some (Returned move_A, 4)).
Proof.
  intros R.
  assert (V : fold_left py_max
                (map (max_child_value self depth' game)
                     (get_legal_moves game (player_id self))) NegInf
              = fst (max_result self (S depth') game None None)).
  { simpl. symmetry. apply max_scan_fold. }
  rewrite V. intros L W.
  apply max_value_returned in R.
  rewrite (max_result_no_cutoff self depth' game W) in R.
  pose proof (max_scan_first (min_result self depth') game
                (get_legal_moves game (player_id self)) NegInf NO_MOVE) as F.
  simpl in F, R, L. rewrite <- R in F, L. simpl in F, L.
  destruct F as [U D].
  split; [simpl; rewrite <- R; reflexivity |]. split; [exact U |]. split.
  - destruct D as [D | (_ & l1 & l2 & E1 & E2 & E3)].
    + inversion D; subst. exfalso. value_order.
    + exists l1, l2. auto.
  - intros method. unfold get_move, try_block, search_method. simpl.
    destruct (String.eqb method "minimax"); split; vm_compute; reflexivity.
Qed.

Lemma first_maximum_is_kept_witness :
  num 9 = fold_left py_max
            (map (max_child_value (player "alphabeta" false 1) 0 tie_ply)
                 (get_legal_moves tie_ply true)) NegInf /\
  exists l1 l2,
    get_legal_moves tie_ply true = l1 ++ move_A :: l2 /\
    max_child_value (player "alphabeta" false 1) 0 tie_ply move_A = num 9 /\
    forall x, In x l1 ->
      ValueOrder.lt (max_child_value (player "alphabeta" false 1) 0 tie_ply x)
        (num 9).
Proof.
  assert (R : max_value (player "alphabeta" false 1) plenty 1 tie_ply
                (Some (num 6)) (Some PosInf) 0
              = (Returned (num 9, move_A), 4)) by (vm_compute; reflexivity).
  assert (L : ValueOrder.lt NegInf
                (fold_left py_max
                   (map (max_child_value (player "alphabeta" false 1) 0 tie_ply)
                        (get_legal_moves tie_ply true)) NegInf))
    by reflexivity.
  assert (W : Some (num 6) = None \/ Some PosInf = None \/
              exists x y,
                Some (num 6) = Some x /\ Some PosInf = Some y /\
                ValueOrder.lt x
                  (fold_left py_max
                     (map (max_child_value (player "alphabeta" false 1) 0
                             tie_ply)
                          (get_legal_moves tie_ply true)) NegInf) /\
                (ValueOrder.lt
                   (fold_left py_max
                      (map (max_child_value (player "alphabeta" false 1) 0
                              tie_ply)
                           (get_legal_moves tie_ply true)) NegInf) y \/
                 y = PosInf)).
  { right. right. exists (num 6), PosInf.
    split; [reflexivity |]. split; [reflexivity |].
    split; [reflexivity | right; reflexivity]. }
  destruct (@first_maximum_is_kept _ _ _ (player "alphabeta" false 1) plenty
              tie_ply 0 (Some (num 6)) (Some PosInf) 0 4 (num 9) move_A
              R L W) as (E & _ & X & _).
  split; [exact E | exact X].
Defined.

(** C5 as stated fails at a node that is cut off.  On [tie_ply] the moves
    are C, A, B with the values 5, 9, 9; searched with beta = 3 the node
    stops at C, whose value reaches beta, and returns C with the value 5:
    not A, the first of the equal-valued maxima. *)
Lemma cutoff_before_maximum_counterexample :
  get_legal_moves tie_ply true = [move_C; move_A; move_B] /\
  max_child_value (player "alphabeta" false 1) 0 tie_ply move_C = num 5 /\
  max_child_value (player "alphabeta" false 1) 0 tie_ply move_A = num 9 /\
  max_child_value (player "alphabeta" false 1) 0 tie_ply move_B = num 9 /\
  max_value (player "alphabeta" false 1) plenty 1 tie_ply
    (Some NegInf) (Some (num 3)) 0 = (Returned (num 5, move_C), 2) /\
  move_C <> move_A.
Proof.
  repeat split; try (vm_compute; reflexivity). discriminate.
Qed.

(** Beside C5: when every child evaluates to minus infinity no child
    replaces the initial pair.  Both moves of [lost_ply] do, and the search
    returns the sentinel although the position has legal moves. *)
Lemma tie_at_minus_infinity_counterexample :
  get_legal_moves lost_ply true = [move_A; move_B] /\
  max_child_value (player "minimax" false 1) 0 lost_ply move_A = NegInf /\
  max_child_value (player "minimax" false 1) 0 lost_ply move_B = NegInf /\
  max_value (player "minimax" false 1) plenty 1 lost_ply None None 0
    = (Returned (NegInf, NO_MOVE), 3) /\
  NO_MOVE <> move_A.
Proof.
  repeat split; try reflexivity. discriminate.
Qed.

(** C10. The move of every pair returned by [max_value] or [min_value] is
    the sentinel or one of the legal moves the node enumerated; [get_move]
    never lets [Timeout] out and returns the sentinel or a legal move of
    the root for the acting player; and it does return, at a fixed depth
    always and in iterative mode as soon as the clock runs low. *)
Theorem returned_move_is_legal
    {B P : Type} `{Board B P} (self : GamePlayer B P) (time_left : nat -> Qc)
    (game : B) (depth : nat) (alpha beta : option SearchValue)
    (legal_moves : list Move) (n : nat) :
  match fst (max_value self time_left depth game alpha beta n) with
  | Returned r =>
      legal_or_sentinel (get_legal_moves game (player_id self)) (snd r)
  | Raised => True
  end /\
  match fst (min_value self time_left depth game alpha beta n) with
  | Returned r =>
      legal_or_sentinel
        (get_legal_moves game (get_opponent game (player_id self))) (snd r)
  | Raised => True
  end /\
  (forall fuel,
     match get_move self time_left fuel game legal_moves n with
     | Some (Returned move, _) =>
         legal_or_sentinel (get_legal_moves game (player_id self)) move
     | Some (Raised, _) => False
     | None => iterative self = true
     end) /\
  (forall k, n <= k -> expired self time_left k = true ->
     forall fuel, k - n < fuel ->
       get_move self time_left fuel game legal_moves n <> None).
Proof.
  split; [| split; [| split]].
  - destruct (max_value self time_left depth game alpha beta n)
      as [[r |] n'] eqn:R; simpl; trivial.
    apply max_value_returned in R. subst r. apply max_result_move.
  - destruct (min_value self time_left depth game alpha beta n)
      as [[r |] n'] eqn:R; simpl; trivial.
    apply min_value_returned in R. subst r. apply min_result_move.
  - intros fuel. destruct (iterative self) eqn:I.
    + rewrite get_move_iterative by exact I.
      destruct (while_true self time_left fuel game 1 NO_MOVE n)
        as [[[move o] n'] |] eqn:W; trivial.
      eapply while_true_move; [| exact W]. left. reflexivity.
    + rewrite get_move_fixed_depth by exact I.
      destruct (search_method self time_left game (search_depth self) n)
        as [[r |] n'] eqn:R; simpl; [| left; reflexivity].
      apply search_method_returned in R. subst r. apply max_result_move.
  - intros k L E fuel F. destruct (iterative self) eqn:I.
    + rewrite get_move_iterative by exact I.
      pose proof (while_true_stops self time_left game 1 NO_MOVE L E F) as W.
      destruct (while_true self time_left fuel game 1 NO_MOVE n)
        as [[[move o] n'] |]; congruence.
    + rewrite get_move_fixed_depth by exact I. discriminate.
Qed.

Lemma returned_move_is_legal_witness :
  get_move (player "alphabeta" true 3) (low_from 8) 9 two_ply [] 0 <> None.
Proof.
  apply (proj2 (proj2 (proj2
           (returned_move_is_legal (player "alphabeta" true 3) (low_from 8)
              two_ply 0 None None [] 0))) 8).
  - lia.
  - vm_compute. reflexivity.
  - lia.
Defined.

(** ** Claims on [get_move] *)

(** C2. When [Timeout] is raised during a search, [get_move] drops that
    search and returns the move recorded by the last pass that completed:
    the sentinel at a fixed depth, the move of pass [k] when the passes 1
    to [k] of the deepening loop completed and pass [k + 1] was cancelled,
    hence the sentinel when the very first pass is cancelled.  A search
    returns only if none of its readings found the budget used up, so
    [Timeout] is not absorbed below [get_move]; and [get_move] itself
    never raises it. *)
Theorem timeout_keeps_last_completed_move
    {B P : Type} `{Board B P} (self : GamePlayer B P) (time_left : nat -> Qc)
    (game : B) (legal_moves : list Move) (n : nat) :
  (iterative self = false ->
   forall fuel n',
     search_method self time_left game (search_depth self) n = (Raised, n') ->
     get_move self time_left fuel game legal_moves n
     = Some (Returned NO_MOVE, n')) /\
  (iterative self = true ->
   forall k m n1 n2 fuel,
     completed_passes self time_left k game 1 NO_MOVE n = Some (m, n1) ->
     search_method self time_left game (1 + k) n1 = (Raised, n2) ->
     k < fuel ->
     get_move self time_left fuel game legal_moves n
     = Some (Returned m, n2)) /\
  (iterative self = true ->
   forall n2 fuel,
     search_method self time_left game 1 n = (Raised, n2) ->
     0 < fuel ->
     get_move self time_left fuel game legal_moves n
     = Some (Returned NO_MOVE, n2)) /\
  (forall depth r n',
     search_method self time_left game depth n = (Returned r, n') ->
     quiet (expired self time_left) n n') /\
  (forall fuel n',
     get_move self time_left fuel game legal_moves n <> Some (Raised, n')).
Proof.
  assert (I2 : iterative self = true ->
   forall k m n1 n2 fuel,
     completed_passes self time_left k game 1 NO_MOVE n = Some (m, n1) ->
     search_method self time_left game (1 + k) n1 = (Raised, n2) ->
     k < fuel ->
     get_move self time_left fuel game legal_moves n
     = Some (Returned m, n2)).
  { intros I k m n1 n2 fuel C R F.
    rewrite get_move_iterative by exact I.
    replace fuel with (k + S (fuel - S k)) by lia.
    rewrite (while_true_passes self time_left game k _ _ _ _ C).
    simpl. simpl in R. rewrite R. reflexivity. }
  split; [| split; [exact I2 | split; [| split]]].
  - intros I fuel n' R. rewrite get_move_fixed_depth by exact I.
    rewrite R. reflexivity.
  - intros I n2 fuel R F. apply (I2 I 0 NO_MOVE n n2 fuel); trivial.
  - intros depth r n' R.
    pose proof (proj1 (search_method_sound self time_left game depth n)) as S.
    rewrite R in S. apply S.
  - intros. apply get_move_never_raises.
Qed.

Lemma timeout_keeps_last_completed_move_witness :
  get_move (player "alphabeta" true 3) (low_from 8) 5 two_ply [] 0
  = Some (Returned move_B, 9).
Proof.
  apply (proj1 (proj2 (timeout_keeps_last_completed_move
                         (player "alphabeta" true 3) (low_from 8)
                         two_ply [] 0))
           eq_refl 1 move_B 4 9 5).
  - vm_compute. reflexivity.
  - vm_compute. reflexivity.
  - lia.
Defined.

Lemma search_method_set_search_depth
    {B P : Type} `{Board B P} (self : GamePlayer B P) (time_left : nat -> Qc)
    (d : nat) (game : B) (depth n : nat) :
  search_method (set_search_depth self d) time_left game depth n
  = search_method self time_left game depth n.
Proof. reflexivity. Qed.

(** C3. In iterative mode [get_move] does not read [search_depth]; pass
    number [k + 1] of the loop searches the depth [k + 1], for every [k]:
    once the passes 1 to [k] have completed the loop calls the search at
    the depth [k + 1], and goes on at the depth [k + 2] unless that search
    is cancelled; [get_move] returns only on an expired reading of the
    clock, and never while the clock never runs low. *)
Theorem iterative_deepening_is_unbounded
    {B P : Type} `{Board B P} (self : GamePlayer B P) (time_left : nat -> Qc)
    (game : B) (legal_moves : list Move) (n : nat) :
  iterative self = true ->
  (forall fuel d,
     get_move (set_search_depth self d) time_left fuel game legal_moves n
     = get_move self time_left fuel game legal_moves n) /\
  (forall k m n1 fuel,
     completed_passes self time_left k game 1 NO_MOVE n = Some (m, n1) ->
     try_block self time_left (k + S fuel) game n =
     match search_method self time_left game (S k) n1 with
     | (Returned r, n2) =>
         while_true self time_left fuel game (S (S k)) (snd r) n2
     | (Raised, n2) => Some (m, Raised, n2)
     end) /\
  (forall fuel move n',
     get_move self time_left fuel game legal_moves n
     = Some (Returned move, n') ->
     n < n' /\ expired self time_left (pred n') = true) /\
  ((forall i, expired self time_left i = false) ->
   forall fuel, get_move self time_left fuel game legal_moves n = None).
Proof.
  intros I. split; [| split; [| split]].
  - intros fuel d. unfold get_move, try_block.
    change (iterative (set_search_depth self d)) with (iterative self).
    rewrite I. reflexivity.
  - intros k m n1 fuel C. unfold try_block. rewrite I.
    rewrite (while_true_passes self time_left game k _ _ _ _ C).
    reflexivity.
  - intros fuel move n' G. rewrite get_move_iterative in G by exact I.
    destruct (while_true self time_left fuel game 1 NO_MOVE n)
      as [[[mv o] n1] |] eqn:W; [| discriminate].
    apply while_true_raised in W. inversion G; subst. tauto.
  - intros Q fuel. rewrite get_move_iterative by exact I.
    rewrite while_true_forever by exact Q. reflexivity.
Qed.

Lemma iterative_deepening_is_unbounded_witness :
  get_move (set_search_depth (player "minimax" true 1) 7) (low_from 8) 5
    two_ply [] 0
  = get_move (player "minimax" true 1) (low_from 8) 5 two_ply [] 0.
Proof.
  apply (proj1 (iterative_deepening_is_unbounded
                  (player "minimax" true 1) (low_from 8) two_ply [] 0
                  eq_refl)).
Defined.

(** C8, what the code does.  [stuck] has no legal moves.  At a fixed depth
    [get_move] returns the sentinel after one reading of the clock.  In
    iterative mode it returns the sentinel too, but not at once: with a
    clock that runs low at its reading 50 it first completes the fifty
    passes of the depths 1 to 50, and with a clock that never runs low it
    does not return. *)
Theorem no_moves_iterative_waits_for_the_clock :
  get_legal_moves stuck true = [] /\
  get_move (player "minimax" false 3) plenty 0 stuck [] 0
    = Some (Returned NO_MOVE, 1) /\
  completed_passes (player "minimax" true 3) (low_from 50) 50 stuck 1 NO_MOVE 0
    = Some (NO_MOVE, 50) /\
  get_move (player "minimax" true 3) (low_from 50) 60 stuck [] 0
    = Some (Returned NO_MOVE, 51) /\
  (forall fuel,
     get_move (player "minimax" true 3) plenty fuel stuck [] 0 = None).
Proof.
  split; [reflexivity |].
  split; [vm_compute; reflexivity |].
  split; [vm_compute; reflexivity |].
  split; [vm_compute; reflexivity |].
  intros fuel. rewrite get_move_iterative by reflexivity.
  rewrite while_true_forever; [reflexivity |].
  intros i. reflexivity.
Qed.

(* ================================================================== *)
(** * Part III: further properties of the module                        *)
(* ================================================================== *)

(** ** Bounds that do not prune, and the cost of a search *)

Section MoreSearchFacts.

Context {B P : Type} `{Board B P}.
Variable self : GamePlayer B P.
Variable time_left : nat -> Qc.

Lemma max_loop_unpruned child (game : B) (moves : list Move) :
  forall u m a b n,
    use_alpha_beta_pruning a b = false ->
    max_loop child game moves u m a b n =
    explore_all lt_value (fun g => child g a b) game moves (u, m) n.
Proof.
  induction moves as [| move rest IH]; intros u m a b n U; simpl; trivial.
  unfold bind.
  destruct (child (forecast_move game move) a b n) as [[r |] n1]; trivial.
  rewrite U, IH by exact U. destruct (lt_value u (fst r)); reflexivity.
Qed.

Lemma min_loop_unpruned child (game : B) (moves : list Move) :
  forall u m a b n,
    use_alpha_beta_pruning a b = false ->
    min_loop child game moves u m a b n =
    explore_all gt_value (fun g => child g a b) game moves (u, m) n.
Proof.
  induction moves as [| move rest IH]; intros u m a b n U; simpl; trivial.
  unfold bind.
  destruct (child (forecast_move game move) a b n) as [[r |] n1]; trivial.
  rewrite U, IH by exact U. destruct (gt_value u (fst r)); reflexivity.
Qed.

Lemma unpruned_is_plain (a b : option SearchValue) (depth : nat) :
  use_alpha_beta_pruning a b = false ->
  (forall game n,
     max_value self time_left depth game a b n
     = plain_max self time_left depth game n) /\
  (forall game n,
     min_value self time_left depth game a b n
     = plain_min self time_left depth game n).
Proof.
  intros U. induction depth as [| d [IHmax IHmin]]; split; intros game n.
  - rewrite max_value_eq, plain_max_eq. reflexivity.
  - rewrite min_value_eq, plain_min_eq. reflexivity.
  - rewrite max_value_eq, plain_max_eq, !check_timeout_bind.
    destruct (expired self time_left n); trivial.
    rewrite max_loop_unpruned by exact U. apply explore_all_ext. apply IHmin.
  - rewrite min_value_eq, plain_min_eq, !check_timeout_bind.
    destruct (expired self time_left n); trivial.
    rewrite min_loop_unpruned by exact U. apply explore_all_ext. apply IHmax.
Qed.

(** *** No search makes more calls than the tree has nodes *)

Section BoundedLoops.

Variable child : B -> option SearchValue -> option SearchValue
                 -> Clocked (SearchValue * Move).
Variable size : B -> nat.
Hypothesis child_bounded : forall g a b n, snd (child g a b n) <= n + size g.

Lemma max_loop_bounded (game : B) (moves : list Move) :
  forall u m a b n,
    snd (max_loop child game moves u m a b n)
    <= n + list_sum (map (fun move => size (forecast_move game move)) moves).
Proof.
  induction moves as [| move rest IH]; intros u m a b n; simpl; [lia |].
  unfold bind. pose proof (child_bounded (forecast_move game move) a b n) as C.
  destruct (child (forecast_move game move) a b n) as [[r |] n1];
    simpl in C; [| simpl; lia].
  assert (X : forall u' m' a' b',
             snd (max_loop child game rest u' m' a' b' n1)
             <= n + (size (forecast_move game move)
                     + list_sum (map (fun move => size (forecast_move game move))
                                     rest))).
  { intros. etransitivity; [apply IH | lia]. }
  destruct (use_alpha_beta_pruning a b);
    [destruct a as [a |], b as [b |] |]; try apply X.
  destruct (ge_value _ b); [simpl; lia | apply X].
Qed.

Lemma min_loop_bounded (game : B) (moves : list Move) :
  forall u m a b n,
    snd (min_loop child game moves u m a b n)
    <= n + list_sum (map (fun move => size (forecast_move game move)) moves).
Proof.
  induction moves as [| move rest IH]; intros u m a b n; simpl; [lia |].
  unfold bind. pose proof (child_bounded (forecast_move game move) a b n) as C.
  destruct (child (forecast_move game move) a b n) as [[r |] n1];
    simpl in C; [| simpl; lia].
  assert (X : forall u' m' a' b',
             snd (min_loop child game rest u' m' a' b' n1)
             <= n + (size (forecast_move game move)
                     + list_sum (map (fun move => size (forecast_move game move))
                                     rest))).
  { intros. etransitivity; [apply IH | lia]. }
  destruct (use_alpha_beta_pruning a b);
    [destruct a as [a |], b as [b |] |]; try apply X.
  destruct (le_value _ a); [simpl; lia | apply X].
Qed.

End BoundedLoops.

Lemma check_then_bounded {A : Type} (k : Clocked A) (nodes n : nat) :
  snd (k (S n)) <= S n + nodes ->
  snd ((check_timeout self time_left ;;; k) n) <= n + S nodes.
Proof.
  rewrite check_timeout_bind.
  destruct (expired self time_left n); simpl; lia.
Qed.

Lemma search_bounded (depth : nat) :
  (forall game a b n,
     snd (max_value self time_left depth game a b n)
     <= n + max_nodes self depth game) /\
  (forall game a b n,
     snd (min_value self time_left depth game a b n)
     <= n + min_nodes self depth game).
Proof.
  induction depth as [| d [IHmax IHmin]]; split; intros game a b n.
  - rewrite max_value_eq. apply check_then_bounded with (nodes := 0). simpl. lia.
  - rewrite min_value_eq. apply check_then_bounded with (nodes := 0). simpl. lia.
  - rewrite max_value_eq. simpl max_nodes. apply check_then_bounded.
    apply max_loop_bounded with (size := min_nodes self d). apply IHmin.
  - rewrite min_value_eq. simpl min_nodes. apply check_then_bounded.
    apply min_loop_bounded with (size := max_nodes self d). apply IHmax.
Qed.

(** *** A search stops on the first expired reading *)

Lemma prompt_step {A : Type} (n n1 : nat) (run : outcome A * nat) :
  n <= n1 -> quiet (expired self time_left) n n1 ->
  prompt (expired self time_left) n1 run ->
  prompt (expired self time_left) n run.
Proof.
  intros L Q. destruct run as [[r |] n2]; simpl.
  - intros [L2 Q2]. split; [lia | eapply quiet_trans; eassumption].
  - intros (L2 & Q2 & E). repeat split; trivial; [lia |].
    eapply quiet_trans; eassumption.
Qed.

Section PromptLoops.

Variable child : B -> option SearchValue -> option SearchValue
                 -> Clocked (SearchValue * Move).
Hypothesis child_prompt : forall g a b n,
  prompt (expired self time_left) n (child g a b n).

Lemma max_loop_prompt (game : B) (moves : list Move) :
  forall u m a b n,
    match max_loop child game moves u m a b n with
    | (Returned _, n') => n <= n' /\ quiet (expired self time_left) n n'
    | (Raised, n') =>
        n < n' /\ quiet (expired self time_left) n (pred n') /\
        expired self time_left (pred n') = true
    end.
Proof.
  induction moves as [| move rest IH]; intros u m a b n.
  - simpl. split; [lia | apply quiet_refl].
  - simpl. unfold bind.
    pose proof (child_prompt (forecast_move game move) a b n) as S.
    destruct (child (forecast_move game move) a b n) as [[c |] n1];
      [| exact S].
    destruct S as [L Q].
    assert (X : forall u' m' a' b',
               prompt (expired self time_left) n
                 (max_loop child game rest u' m' a' b' n1)).
    { intros. eapply prompt_step; [exact L | exact Q | apply IH]. }
    destruct (use_alpha_beta_pruning a b);
      [destruct a as [a |], b as [b |] |]; try apply X.
    destruct (ge_value _ b); [split; assumption | apply X].
Qed.

Lemma min_loop_prompt (game : B) (moves : list Move) :
  forall u m a b n,
    match min_loop child game moves u m a b n with
    | (Returned _, n') => n <= n' /\ quiet (expired self time_left) n n'
    | (Raised, n') =>
        n < n' /\ quiet (expired self time_left) n (pred n') /\
        expired self time_left (pred n') = true
    end.
Proof.
  induction moves as [| move rest IH]; intros u m a b n.
  - simpl. split; [lia | apply quiet_refl].
  - simpl. unfold bind.
    pose proof (child_prompt (forecast_move game move) a b n) as S.
    destruct (child (forecast_move game move) a b n) as [[c |] n1];
      [| exact S].
    destruct S as [L Q].
    assert (X : forall u' m' a' b',
               prompt (expired self time_left) n
                 (min_loop child game rest u' m' a' b' n1)).
    { intros. eapply prompt_step; [exact L | exact Q | apply IH]. }
    destruct (use_alpha_beta_pruning a b);
      [destruct a as [a |], b as [b |] |]; try apply X.
    destruct (le_value _ a); [split; assumption | apply X].
Qed.

End PromptLoops.

Lemma check_then_prompt {A : Type} (k : Clocked A) (n : nat) :
  prompt (expired self time_left) (S n) (k (S n)) ->
  prompt (expired self time_left) n ((check_timeout self time_left ;;; k) n).
Proof.
  intros K. rewrite check_timeout_bind.
  destruct (expired self time_left n) eqn:E.
  - simpl. repeat split; trivial; [lia | apply quiet_refl].
  - apply prompt_step with (n1 := S n); trivial; [lia |].
    intros i Hi. replace i with n by lia. exact E.
Qed.

Lemma search_prompt (depth : nat) :
  (forall game a b n,
     prompt (expired self time_left) n
       (max_value self time_left depth game a b n)) /\
  (forall game a b n,
     prompt (expired self time_left) n
       (min_value self time_left depth game a b n)).
Proof.
  induction depth as [| d [IHmax IHmin]]; split; intros game a b n.
  - rewrite max_value_eq. apply check_then_prompt.
    simpl. split; [lia | apply quiet_refl].
  - rewrite min_value_eq. apply check_then_prompt.
    simpl. split; [lia | apply quiet_refl].
  - rewrite max_value_eq. apply check_then_prompt.
    apply max_loop_prompt. intros. apply IHmin.
  - rewrite min_value_eq. apply check_then_prompt.
    apply min_loop_prompt. intros. apply IHmax.
Qed.

Lemma search_method_prompt (game : B) (depth n : nat) :
  prompt (expired self time_left) n
    (search_method self time_left game depth n).
Proof.
  unfold search_method, minimax, alphabeta.
  destruct (String.eqb (method self) "minimax"); apply (search_prompt depth).
Qed.

Lemma search_method_bounded (game : B) (depth n : nat) :
  snd (search_method self time_left game depth n)
  <= n + max_nodes self depth game.
Proof.
  unfold search_method, minimax, alphabeta.
  destruct (String.eqb (method self) "minimax"); apply (search_bounded depth).
Qed.

End MoreSearchFacts.

(** ** Values and moves of the exhaustive scans *)

Section MoreScanFacts.

Context {B P : Type} `{Board B P}.
Variable self : GamePlayer B P.

Lemma min_scan_fold child (game : B) (moves : list Move) :
  forall (u : SearchValue) (m : Move),
    fst (min_scan child game moves u m None None) =
    fold_left py_min
      (map (fun x => fst (child (forecast_move game x) None None)) moves) u.
Proof.
  induction moves as [| move rest IH]; intros u m; simpl; trivial.
  rewrite IH. unfold py_min, gt_value.
  destruct (lt_value _ u); reflexivity.
Qed.

(** The exhaustive minimizing scan keeps the first move that reaches the
    smallest child value, when that value beats the initial one. *)
Lemma min_scan_first child (game : B) (moves : list Move) :
  forall (u0 : SearchValue) (m0 : Move),
    let cv := fun x => fst (child (forecast_move game x) None None) in
    let r := min_scan child game moves u0 m0 None None in
    (forall x, In x moves -> ValueOrder.le (fst r) (cv x)) /\
    ((r = (u0, m0)) \/
     (ValueOrder.lt (fst r) u0 /\
      exists l1 l2, moves = l1 ++ snd r :: l2 /\ cv (snd r) = fst r /\
                    forall x, In x l1 -> ValueOrder.lt (fst r) (cv x))).
Proof.
  induction moves as [| move rest IH]; intros u0 m0; simpl.
  - split; [tauto | auto].
  - set (c := fst (child (forecast_move game move) None None)).
    pose proof (min_scan_shrinks child game rest) as G.
    destruct (gt_value u0 c) eqn:E; simpl.
    + specialize (IH c move). specialize (G c move None None).
      simpl in IH. destruct IH as [U D].
      set (r := min_scan child game rest c move None None) in *.
      split.
      * intros x [<- | I]; [exact G | auto].
      * right. split; [value_order |].
        destruct D as [-> | (L & l1 & l2 & E1 & E2 & E3)].
        -- exists [], rest. simpl. repeat split; tauto.
        -- exists (move :: l1), l2. simpl. rewrite <- E1.
           repeat split; trivial.
           intros x [<- | I]; [exact L | auto].
    + specialize (IH u0 m0). specialize (G u0 m0 None None).
      simpl in IH. destruct IH as [U D].
      set (r := min_scan child game rest u0 m0 None None) in *.
      split.
      * intros x [<- | I]; [fold c; value_order | auto].
      * destruct D as [-> | (L & l1 & l2 & E1 & E2 & E3)]; [auto |].
        right. split; trivial.
        exists (move :: l1), l2. simpl. rewrite <- E1.
        repeat split; trivial.
        intros x [<- | I]; [fold c; value_order | auto].
Qed.

(** The scans hand back the initial value or a value of a child. *)
Lemma max_scan_value child (game : B) (Q : SearchValue -> Prop)
    (moves : list Move) :
  (forall move a b, Q (fst (child (forecast_move game move) a b))) ->
  forall u m a b, Q u -> Q (fst (max_scan child game moves u m a b)).
Proof.
  intros C. induction moves as [| move rest IH]; intros u m a b U; simpl;
    trivial.
  set (c := fst (child (forecast_move game move) a b)).
  assert (X : forall m1 m2 : Move,
             Q (fst (if lt_value u c then (c, m1) else (u, m2)))).
  { intros. destruct (lt_value u c); simpl; [apply C | exact U]. }
  destruct (use_alpha_beta_pruning a b);
    [destruct a as [a |], b as [b |] |]; try (apply IH, X).
  destruct (ge_value _ b); [apply X | apply IH, X].
Qed.

Lemma min_scan_value child (game : B) (Q : SearchValue -> Prop)
    (moves : list Move) :
  (forall move a b, Q (fst (child (forecast_move game move) a b))) ->
  forall u m a b, Q u -> Q (fst (min_scan child game moves u m a b)).
Proof.
  intros C. induction moves as [| move rest IH]; intros u m a b U; simpl;
    trivial.
  set (c := fst (child (forecast_move game move) a b)).
  assert (X : forall m1 m2 : Move,
             Q (fst (if gt_value u c then (c, m1) else (u, m2)))).
  { intros. destruct (gt_value u c); simpl; [apply C | exact U]. }
  destruct (use_alpha_beta_pruning a b);
    [destruct a as [a |], b as [b |] |]; try (apply IH, X).
  destruct (le_value _ a); [apply X | apply IH, X].
Qed.

Lemma result_value (root : B) (depth : nat) :
  (forall g a b, reachable root g ->
     evaluator_value self root (fst (max_result self depth g a b))) /\
  (forall g a b, reachable root g ->
     evaluator_value self root (fst (min_result self depth g a b))).
Proof.
  induction depth as [| d [IHmax IHmin]]; split; intros g a b R.
  - right. right. exists g. auto.
  - right. right. exists g. auto.
  - simpl. apply max_scan_value; [| left; reflexivity].
    intros. apply IHmin. apply reach_move. exact R.
  - simpl. apply min_scan_value; [| right; left; reflexivity].
    intros. apply IHmax. apply reach_move. exact R.
Qed.

End MoreScanFacts.

(** ** More on the deepening loop *)

Section MoreGetMoveFacts.

Context {B P : Type} `{Board B P}.
Variable self : GamePlayer B P.
Variable time_left : nat -> Qc.

Lemma completed_passes_first (game : B) (k : nat) :
  forall d move n r n1,
    search_method self time_left game d n = (Returned r, n1) ->
    completed_passes self time_left (S k) game d move n
    = completed_passes self time_left k game (S d) (snd r) n1.
Proof.
  induction k as [| k IH]; intros d move n r n1 R.
  - simpl. rewrite Nat.add_0_r, R. reflexivity.
  - change (completed_passes self time_left (S (S k)) game d move n)
      with (match completed_passes self time_left (S k) game d move n with
            | Some (_, n2) =>
                match search_method self time_left game (d + S k) n2 with
                | (Returned r', n3) => Some (snd r', n3)
                | (Raised, _) => None
                end
            | None => None
            end).
    rewrite (IH d move n r n1 R). simpl.
    rewrite Nat.add_succ_r. reflexivity.
Qed.

(** What the loop hands over is the record of the passes that completed
    before the cancelled one. *)
Lemma while_true_result (game : B) (fuel : nat) :
  forall d move n mv o n',
    while_true self time_left fuel game d move n = Some (mv, o, n') ->
    exists k n1,
      completed_passes self time_left k game d move n = Some (mv, n1) /\
      search_method self time_left game (d + k) n1 = (Raised, n').
Proof.
  induction fuel as [| fuel IH]; intros d move n mv o n' W; [discriminate |].
  simpl in W.
  destruct (search_method self time_left game d n) as [[r |] n1] eqn:R.
  - apply IH in W. destruct W as (k & n2 & C & X).
    exists (S k), n2. split.
    + rewrite (completed_passes_first game k d move n R). exact C.
    + rewrite Nat.add_succ_r. exact X.
  - inversion W; subst. exists 0, n. rewrite Nat.add_0_r. auto.
Qed.

(** All the passes that complete see a quiet clock, and the move recorded by
    pass [k > 0] is the minimax move of the depth it searched. *)
Lemma completed_passes_record (game : B) (k : nat) :
  forall d move n mv n1,
    completed_passes self time_left k game d move n = Some (mv, n1) ->
    n <= n1 /\ quiet (expired self time_left) n n1 /\
    (k = 0 -> mv = move) /\
    (0 < k -> mv = snd (max_result self (d + k - 1) game None None)).
Proof.
  induction k as [| k IH]; intros d move n mv n1 C.
  - simpl in C. inversion C; subst.
    repeat split; trivial; [apply quiet_refl | lia].
  - simpl in C.
    destruct (completed_passes self time_left k game d move n)
      as [[m' n'] |] eqn:E; [| discriminate].
    destruct (search_method self time_left game (d + k) n')
      as [[r |] n2] eqn:R; [| discriminate].
    inversion C; subst.
    destruct (IH d move n m' n' E) as (L & Q & _).
    pose proof (search_method_prompt self time_left game (d + k) n') as S.
    rewrite R in S. destruct S as [L2 Q2].
    repeat split; [lia | eapply quiet_trans; eassumption | lia |].
    intros _. apply search_method_returned in R. subst r.
    replace (d + S k - 1) with (d + k) by lia. reflexivity.
Qed.

End MoreGetMoveFacts.

(** ** Further properties of the search core *)

(** X1. Inside any window alpha < beta the pruned search stands for the
    exhaustive one: when both runs return, the pruned value is the minimax
    value if that lies strictly inside the window, is at most alpha if the
    minimax value is, and is at least beta if the minimax value is.  This
    holds for [max_value] and for [min_value], at every depth. *)
Theorem pruned_search_respects_window
    {B P : Type} `{Board B P} (self : GamePlayer B P)
    (clock1 clock2 : nat -> Qc) (game : B) (depth : nat)
    (a b : SearchValue) (n1 n2 n1' n2' : nat) (r v : SearchValue * Move) :
  lt_value a b = true ->
  (max_value self clock1 depth game (Some a) (Some b) n1 = (Returned r, n1') ->
   max_value self clock2 depth game None None n2 = (Returned v, n2') ->
   within a b (fst v) (fst r)) /\
  (min_value self clock1 depth game (Some a) (Some b) n1 = (Returned r, n1') ->
   min_value self clock2 depth game None None n2 = (Returned v, n2') ->
   within a b (fst v) (fst r)).
Proof.
  intros L. split; intros R1 R2.
  - apply max_value_returned in R1, R2. subst.
    apply (result_within self depth). exact L.
  - apply min_value_returned in R1, R2. subst.
    apply (result_within self depth). exact L.
Qed.

Lemma pruned_search_respects_window_witness :
  within (num 3) PosInf (num 2) (num 2).
Proof.
  assert (R1 : min_value (player "alphabeta" false 2) plenty 1
                 (tree_forecast two_ply move_B) (Some (num 3)) (Some PosInf) 0
               = (Returned (num 2, move_A), 2)) by (vm_compute; reflexivity).
  assert (R2 : min_value (player "alphabeta" false 2) plenty 1
                 (tree_forecast two_ply move_B) None None 0
               = (Returned (num 2, move_A), 3)) by (vm_compute; reflexivity).
  exact (proj2 (@pruned_search_respects_window _ _ _
                  (player "alphabeta" false 2) plenty plenty
                  (tree_forecast two_ply move_B) 1 (num 3) PosInf
                  0 0 2 3 (num 2, move_A) (num 2, move_A) eq_refl) R1 R2).
Defined.

(** X2. Pruning needs both bounds: when alpha or beta is absent, the run
    of [max_value] and of [min_value] is the run of the search without any
    bound, reading for reading. *)
Theorem one_sided_bounds_do_not_prune
    {B P : Type} `{Board B P} (self : GamePlayer B P) (time_left : nat -> Qc)
    (game : B) (depth : nat) (a b : option SearchValue) (n : nat) :
  a = None \/ b = None ->
  max_value self time_left depth game a b n
  = max_value self time_left depth game None None n /\
  min_value self time_left depth game a b n
  = min_value self time_left depth game None None n.
Proof.
  intros N.
  assert (U : use_alpha_beta_pruning a b = false)
    by (destruct N; subst; [| destruct a]; reflexivity).
  destruct (unpruned_is_plain self time_left a b depth U) as [E1 E2].
  destruct (unpruned_is_plain self time_left None None depth eq_refl)
    as [F1 F2].
  rewrite E1, E2, F1, F2. split; reflexivity.
Qed.

Lemma one_sided_bounds_do_not_prune_witness :
  max_value (player "alphabeta" false 2) plenty 2 two_ply (Some (num 3)) None 0
  = max_value (player "alphabeta" false 2) plenty 2 two_ply None None 0.
Proof.
  apply (proj1 (@one_sided_bounds_do_not_prune _ _ _
                  (player "alphabeta" false 2) plenty two_ply 2
                  (Some (num 3)) None 0 (or_intror eq_refl))).
Defined.

(** X3. Pruning never costs more: whatever the bounds and the clock,
    [alphabeta] makes no more calls of [max_value] and [min_value] (one
    clock reading each) than a [minimax] run that returns on the same
    position, depth and side. *)
Theorem pruning_never_costs_more
    {B P : Type} `{Board B P} (self : GamePlayer B P)
    (clock1 clock2 : nat -> Qc) (game : B) (depth : nat)
    (alpha beta : SearchValue) (maximizing_player : bool)
    (n1 n2 n2' : nat) (r : SearchValue * Move) :
  minimax self clock2 game depth maximizing_player n2 = (Returned r, n2') ->
  snd (alphabeta self clock1 game depth alpha beta maximizing_player n1) - n1
  <= n2' - n2.
Proof.
  unfold minimax, alphabeta. destruct maximizing_player; intros R.
  - pose proof (proj1 (plain_visits self clock2 depth) game n2) as V.
    rewrite <- (proj1 (no_bounds_is_plain self clock2 depth)), R in V.
    simpl in V.
    pose proof (proj1 (search_bounded self clock1 depth) game
                  (Some alpha) (Some beta) n1).
    lia.
  - pose proof (proj2 (plain_visits self clock2 depth) game n2) as V.
    rewrite <- (proj2 (no_bounds_is_plain self clock2 depth)), R in V.
    simpl in V.
    pose proof (proj2 (search_bounded self clock1 depth) game
                  (Some alpha) (Some beta) n1).
    lia.
Qed.

Lemma pruning_never_costs_more_witness :
  snd (alphabeta (player "alphabeta" false 2) plenty two_ply 2
         NegInf PosInf true 0) - 0 <= 10 - 0.
Proof.
  assert (R : minimax (player "alphabeta" false 2) plenty two_ply 2 true 0
              = (Returned (num 3, move_A), 10)) by (vm_compute; reflexivity).
  exact (@pruning_never_costs_more _ _ _ (player "alphabeta" false 2)
           plenty plenty two_ply 2 NegInf PosInf true 0 0 10
           (num 3, move_A) R).
Defined.

(** X4. The value of plain minimax obeys the minimax equation: at a
    maximizing node of depth > 0 it is the maximum of the children's values
    taken from minus infinity, at a minimizing node the minimum taken from
    plus infinity (so a node without moves is worth minus resp. plus
    infinity). *)
Theorem minimax_value_equation
    {B P : Type} `{Board B P} (self : GamePlayer B P) (time_left : nat -> Qc)
    (game : B) (depth' n n' : nat) (r : SearchValue * Move) :
  (minimax self time_left game (S depth') true n = (Returned r, n') ->
   fst r = fold_left py_max
             (map (max_child_value self depth' game)
                  (get_legal_moves game (player_id self))) NegInf) /\
  (minimax self time_left game (S depth') false n = (Returned r, n') ->
   fst r = fold_left py_min
             (map (min_child_value self depth' game)
                  (get_legal_moves game (get_opponent game (player_id self))))
             PosInf).
Proof.
  unfold minimax. split; intros R.
  - apply max_value_returned in R. subst r. simpl. apply max_scan_fold.
  - apply min_value_returned in R. subst r. simpl. apply min_scan_fold.
Qed.

Lemma minimax_value_equation_witness :
  fst (num 3, move_A) =
  fold_left py_max
    (map (max_child_value (player "minimax" false 2) 1 two_ply)
         (get_legal_moves two_ply true)) NegInf.
Proof.
  assert (R : minimax (player "minimax" false 2) plenty two_ply 2 true 0
              = (Returned (num 3, move_A), 10)) by (vm_compute; reflexivity).
  exact (proj1 (@minimax_value_equation _ _ _ (player "minimax" false 2)
                  plenty two_ply 1 0 10 (num 3, move_A)) R).
Defined.

(** X5. A minimizing node replaces its best pair only on a strictly smaller
    child value: the value a plain minimax run returns at a minimizing root
    is below every child value; when it is below plus infinity the move
    returned is the first move, in enumeration order, whose child reaches
    it; when it is plus infinity the sentinel is returned. *)
Theorem first_minimum_is_kept
    {B P : Type} `{Board B P} (self : GamePlayer B P) (time_left : nat -> Qc)
    (game : B) (depth' n n' : nat) (u : SearchValue) (m : Move) :
  minimax self time_left game (S depth') false n = (Returned (u, m), n') ->
  (forall x,
     In x (get_legal_moves game (get_opponent game (player_id self))) ->
     ValueOrder.le u (min_child_value self depth' game x)) /\
  (ValueOrder.lt u PosInf ->
   exists l1 l2,
     get_legal_moves game (get_opponent game (player_id self))
     = l1 ++ m :: l2 /\
     min_child_value self depth' game m = u /\
     forall x, In x l1 -> ValueOrder.lt u (min_child_value self depth' game x)) /\
  (u = PosInf -> m = NO_MOVE).
Proof.
  unfold minimax. intros R. apply min_value_returned in R.
  pose proof (min_scan_first (max_result self depth') game
                (get_legal_moves game (get_opponent game (player_id self)))
                PosInf NO_MOVE) as F.
  simpl in F, R. rewrite <- R in F. simpl in F. destruct F as [U D].
  split; [exact U |].
  split.
  - intros L. destruct D as [D | (_ & l1 & l2 & E1 & E2 & E3)].
    + inversion D; subst. exfalso. value_order.
    + exists l1, l2. auto.
  - intros ->. destruct D as [D | (L & _)].
    + inversion D; subst. reflexivity.
    + exfalso. pose proof (PosInf_greatest PosInf). value_order.
Qed.

Lemma first_minimum_is_kept_witness :
  exists l1 l2,
    get_legal_moves (tree_forecast two_ply move_A)
      (get_opponent (tree_forecast two_ply move_A) true)
    = l1 ++ move_A :: l2 /\
    min_child_value (player "minimax" false 2) 0
      (tree_forecast two_ply move_A) move_A = num 3 /\
    forall x, In x l1 ->
      ValueOrder.lt (num 3)
        (min_child_value (player "minimax" false 2) 0
           (tree_forecast two_ply move_A) x).
Proof.
  assert (R : minimax (player "minimax" false 2) plenty
                (tree_forecast two_ply move_A) 1 false 0
              = (Returned (num 3, move_A), 3)) by (vm_compute; reflexivity).
  apply (proj1 (proj2 (@first_minimum_is_kept _ _ _
                         (player "minimax" false 2) plenty
                         (tree_forecast two_ply move_A) 0 0 3
                         (num 3) move_A R))).
  reflexivity.
Defined.

(** X6. Cancellation is prompt.  A call of [max_value] or [min_value]
    reads the clock at least once, and every reading before its last one
    found time left; it raises [Timeout] exactly when its last reading
    finds the budget used up.  So no node is searched after the first
    expired reading, and a run that returns saw no expired reading. *)
Theorem search_stops_on_first_expiry
    {B P : Type} `{Board B P} (self : GamePlayer B P) (time_left : nat -> Qc)
    (game : B) (depth : nat) (a b : option SearchValue)
    (n n' : nat) (o : outcome (SearchValue * Move)) :
  max_value self time_left depth game a b n = (o, n') \/
  min_value self time_left depth game a b n = (o, n') ->
  n < n' /\
  quiet (expired self time_left) n (pred n') /\
  (expired self time_left (pred n') = true <-> o = Raised).
Proof.
  assert (G : forall run : outcome (SearchValue * Move) * nat,
             prompt (expired self time_left) n run -> n < snd run ->
             run = (o, n') ->
             n < n' /\ quiet (expired self time_left) n (pred n') /\
             (expired self time_left (pred n') = true <-> o = Raised)).
  { intros run S L E. subst run. simpl in L. split; [exact L |].
    destruct o as [r |]; simpl in S.
    - destruct S as [_ Q]. split.
      + intros i Hi. apply Q. lia.
      + rewrite Q by lia. split; discriminate.
    - destruct S as (_ & Q & E). split; [exact Q | tauto]. }
  intros [R | R].
  - apply (G _ (proj1 (search_prompt self time_left depth) game a b n)
             (proj2 (proj1 (search_sound self time_left depth) game a b n)) R).
  - apply (G _ (proj2 (search_prompt self time_left depth) game a b n)
             (proj2 (proj2 (search_sound self time_left depth) game a b n)) R).
Qed.

Lemma search_stops_on_first_expiry_witness :
  0 < 9 /\
  quiet (expired (player "minimax" false 2) (low_from 8)) 0 (pred 9) /\
  (expired (player "minimax" false 2) (low_from 8) (pred 9) = true
   <-> @Raised (SearchValue * Move) = Raised).
Proof.
  apply (@search_stops_on_first_expiry _ _ _ (player "minimax" false 2)
           (low_from 8) two_ply 2 None None 0 9 Raised).
  left. vm_compute. reflexivity.
Defined.

(** X7. A search only returns values it was given: the value of a pair
    returned by [max_value] or [min_value], with or without bounds, is minus
    infinity, plus infinity, or the score the scoring function gives to a
    position reached from the searched one by applying moves. *)
Theorem search_values_come_from_the_evaluator
    {B P : Type} `{Board B P} (self : GamePlayer B P) (time_left : nat -> Qc)
    (game : B) (depth : nat) (a b : option SearchValue)
    (n n' : nat) (r : SearchValue * Move) :
  max_value self time_left depth game a b n = (Returned r, n') \/
  min_value self time_left depth game a b n = (Returned r, n') ->
  evaluator_value self game (fst r).
Proof.
  intros [R | R].
  - apply max_value_returned in R. subst r.
    apply (result_value self game depth). apply reach_here.
  - apply min_value_returned in R. subst r.
    apply (result_value self game depth). apply reach_here.
Qed.

Lemma search_values_come_from_the_evaluator_witness :
  evaluator_value (player "alphabeta" false 2) two_ply (fst (num 3, move_A)).
Proof.
  apply (@search_values_come_from_the_evaluator _ _ _
           (player "alphabeta" false 2) plenty two_ply 2
           (Some NegInf) (Some PosInf) 0 8 (num 3, move_A)).
  left. vm_compute. reflexivity.
Defined.

(** ** Further properties of [get_move] and of the scoring function *)

(** X8. In iterative mode [get_move] returns on the first expired reading
    of the clock.  When the reading [k] is the first one, from the reading
    [n] on, that finds the budget used up, [get_move] started at [n]
    returns (the loop needs no more than [k - n + 1] passes) right after
    the reading [k].  The move it returns is the one recorded by the passes
    that completed before: the sentinel when there is none, and otherwise
    the plain minimax move of the depth [j] of the last completed pass,
    whichever method is configured. *)
Theorem iterative_get_move_result
    {B P : Type} `{Board B P} (self : GamePlayer B P) (time_left : nat -> Qc)
    (game : B) (legal_moves : list Move) (fuel n k : nat) :
  iterative self = true ->
  n <= k ->
  quiet (expired self time_left) n k ->
  expired self time_left k = true ->
  k - n < fuel ->
  exists move j n1,
    get_move self time_left fuel game legal_moves n
    = Some (Returned move, S k) /\
    completed_passes self time_left j game 1 NO_MOVE n = Some (move, n1) /\
    fst (search_method self time_left game (S j) n1) = Raised /\
    (j = 0 -> move = NO_MOVE) /\
    (0 < j -> move = snd (max_result self j game None None)).
Proof.
  intros I L Qk Ek F. rewrite get_move_iterative by exact I.
  pose proof (while_true_stops self time_left game 1 NO_MOVE L Ek F) as T.
  destruct (while_true self time_left fuel game 1 NO_MOVE n)
    as [[[mv o] n2] |] eqn:W; [clear T | congruence].
  apply while_true_result in W. destruct W as (j & n1 & C & X).
  destruct (completed_passes_record self time_left game j 1 NO_MOVE n C)
    as (L0 & Q0 & M0 & M1).
  pose proof (search_method_prompt self time_left game (1 + j) n1) as S.
  rewrite X in S. simpl in S. destruct S as (L1 & Q1 & E).
  assert (Q : quiet (expired self time_left) n (pred n2))
    by (apply quiet_trans with (n1 := n1); trivial).
  assert (n2 = S k) as ->.
  { destruct (Nat.lt_trichotomy (pred n2) k) as [Lt | [Eq | Gt]].
    - rewrite Qk in E by lia. discriminate.
    - lia.
    - rewrite Q in Ek by lia. discriminate. }
  exists mv, j, n1. split; [reflexivity |]. split; [exact C |].
  split; [simpl in X; rewrite X; trivial |].
  split; [exact M0 |]. intros K. rewrite (M1 K).
  replace (1 + j - 1) with j by lia. reflexivity.
Qed.

Lemma iterative_get_move_result_witness :
  exists move j n1,
    get_move (player "alphabeta" true 3) (low_from 8) 9 two_ply [] 0
    = Some (Returned move, 9) /\
    completed_passes (player "alphabeta" true 3) (low_from 8) j two_ply 1
      NO_MOVE 0 = Some (move, n1) /\
    fst (search_method (player "alphabeta" true 3) (low_from 8) two_ply
           (S j) n1) = Raised /\
    (j = 0 -> move = NO_MOVE) /\
    (0 < j ->
     move = snd (max_result (player "alphabeta" true 3) j two_ply None None)).
Proof.
  apply (@iterative_get_move_result _ _ _ (player "alphabeta" true 3)
           (low_from 8) two_ply [] 9 0 8 eq_refl).
  - lia.
  - intros i [_ Hi]. do 8 (destruct i as [| i]; [reflexivity |]). lia.
  - reflexivity.
  - lia.
Defined.

(** X9. At a fixed depth, when the clock has time left for as many readings
    as the tree cut at [search_depth] has nodes, [get_move] returns the
    plain minimax move of that depth, whichever method is configured, after
    at least one and at most that many readings. *)
Theorem fixed_depth_get_move_in_time
    {B P : Type} `{Board B P} (self : GamePlayer B P) (time_left : nat -> Qc)
    (game : B) (legal_moves : list Move) (fuel n : nat) :
  iterative self = false ->
  quiet (expired self time_left) n
    (n + max_nodes self (search_depth self) game) ->
  exists n',
    get_move self time_left fuel game legal_moves n =
    Some (Returned (snd (max_result self (search_depth self) game None None)),
          n') /\
    n < n' <= n + max_nodes self (search_depth self) game.
Proof.
  intros I Q. rewrite get_move_fixed_depth by exact I.
  pose proof (search_method_prompt self time_left game (search_depth self) n)
    as S.
  pose proof (search_method_bounded self time_left game (search_depth self) n)
    as Bd.
  pose proof (proj2 (search_method_sound self time_left game
                       (search_depth self) n)) as L.
  destruct (search_method self time_left game (search_depth self) n)
    as [[r |] n1] eqn:R; simpl in *.
  - exists n1. apply search_method_returned in R. subst r. split; [trivial | lia].
  - destruct S as (_ & _ & E). rewrite Q in E by lia. discriminate.
Qed.

Lemma fixed_depth_get_move_in_time_witness :
  exists n',
    get_move (player "alphabeta" false 2) (low_from 10) 0 two_ply [] 0 =
    Some (Returned (snd (max_result (player "alphabeta" false 2)
                           (search_depth (player "alphabeta" false 2))
                           two_ply None None)), n') /\
    0 < n' <= 0 + max_nodes (player "alphabeta" false 2)
                    (search_depth (player "alphabeta" false 2)) two_ply.
Proof.
  apply (@fixed_depth_get_move_in_time _ _ _ (player "alphabeta" false 2)
           (low_from 10) two_ply [] 0 0 eq_refl).
  intros i [_ Hi]. change (i < 10) in Hi.
  do 10 (destruct i as [| i]; [reflexivity |]). lia.
Defined.

(** X10. A player set to a fixed [search_depth] of 0 never proposes a move:
    [get_move] reads the clock once and returns the sentinel (-1, -1) on
    every position, with or without legal moves and whatever the clock
    says. *)
Theorem zero_search_depth_returns_sentinel
    {B P : Type} `{Board B P} (self : GamePlayer B P) (time_left : nat -> Qc)
    (game : B) (legal_moves : list Move) (fuel n : nat) :
  iterative self = false ->
  search_depth self = 0 ->
  get_move self time_left fuel game legal_moves n
  = Some (Returned NO_MOVE, S n).
Proof.
  intros I D. rewrite get_move_fixed_depth by exact I. rewrite D.
  unfold search_method, minimax, alphabeta.
  destruct (String.eqb (method self) "minimax");
    rewrite max_value_eq, check_timeout_bind;
    destruct (expired self time_left n); reflexivity.
Qed.

Lemma zero_search_depth_returns_sentinel_witness :
  get_move (player "minimax" false 0) plenty 0 one_ply
    (get_legal_moves one_ply true) 0 = Some (Returned NO_MOVE, 1).
Proof.
  apply (@zero_search_depth_returns_sentinel _ _ _ (player "minimax" false 0)
           plenty one_ply (get_legal_moves one_ply true) 0 0 eq_refl eq_refl).
Defined.

(** X11. In the default scoring function the loser test comes first, on
    every board: [custom_score] is minus infinity exactly when the board
    calls the player a loser (even if it also calls the player a winner),
    and plus infinity exactly when it calls the player a winner and not a
    loser. *)
Theorem custom_score_loser_first
    {B P : Type} `{Board B P} (game : B) (player : P) :
  (custom_score game player = NegInf <-> is_loser game player = true) /\
  (custom_score game player = PosInf
   <-> is_loser game player = false /\ is_winner game player = true).
Proof.
  unfold custom_score, custom_score_weight.
  destruct (is_loser game player), (is_winner game player);
    repeat split; intros; try congruence; try tauto;
    match goal with
    | X : _ /\ _ |- _ => destruct X; congruence
    end.
Qed.
